(** * bleamd: the ANSI-aware styled-text engine

    A shallow embedding of the position mapper, the search state, the
    hyperlink injector, the link hit-table builder and the viewport clipper
    of bleamd (search.go, hyperlinks.go, main.go), with the properties the
    specification states about them.

    Go strings are byte sequences: [list byte].  Go [int] values are modelled
    as [Z]; every integer computed here is an offset into, or the length of, a
    string held in memory, so 64-bit wrap-around never occurs.  A loop over
    an index is a [Fixpoint] on a fuel argument that is large enough for the
    loop to leave by its own exit condition (lemmas below establish this
    where a claim depends on it). *)

From Stdlib Require Import String DecimalString.
From Stdlib Require Import ZArith List Bool Lia ZifyBool Sorted.
From Stdlib Require Import Init.Byte Strings.Byte.
Import ListNotations.
Open Scope Z_scope.

Set Implicit Arguments.

(* ================================================================== *)
(** ** Bytes and slices *)

Definition bytes : Type := list byte.

(** A string literal as bytes. *)
Definition B (s : string) : bytes := list_byte_of_string s.

Definition code (b : byte) : Z := Z.of_N (Byte.to_N b).

Definition byteOfZ (z : Z) : byte :=
  match Byte.of_N (Z.to_N (z mod 256)) with
  | Some b => b
  | None => x00
  end.

Definition ESC : byte := x1b.
Definition BEL : byte := x07.
Definition LBRACKET : byte := x5b.   (* '[' *)
Definition RBRACKET : byte := x5d.   (* ']' *)
Definition BACKSLASH : byte := x5c.  (* '\\' *)
Definition LPAREN : byte := x28.     (* '(' *)
Definition RPAREN : byte := x29.     (* ')' *)
Definition SPACE : byte := x20.
Definition NEWLINE : byte := x0a.

(** [len(s)]. *)
Definition len (s : bytes) : Z := Z.of_nat (length s).

(** [s[i]], for [0 <= i < len(s)]; every use below is guarded by the bounds
    test the source makes. *)
Definition at_ (s : bytes) (i : Z) : byte := nth (Z.to_nat i) s x00.

(** [s[lo:hi]], for [0 <= lo <= hi <= len(s)]. *)
Definition slice (s : bytes) (lo hi : Z) : bytes :=
  firstn (Z.to_nat (hi - lo)) (skipn (Z.to_nat lo) s).

(** [s[lo:]]. *)
Definition sliceFrom (s : bytes) (lo : Z) : bytes := skipn (Z.to_nat lo) s.

(** Go faults on a slice expression whose bounds are out of range. *)
Definition sliceChecked (s : bytes) (lo hi : Z) : option bytes :=
  if (0 <=? lo) && (lo <=? hi) && (hi <=? len s)
  then Some (slice s lo hi) else None.

Definition isDigit (b : byte) : bool := (48 <=? code b) && (code b <=? 57).
Definition isUpper (b : byte) : bool := (65 <=? code b) && (code b <=? 90).
Definition isLower (b : byte) : bool := (97 <=? code b) && (code b <=? 122).
Definition isLetter (b : byte) : bool := isUpper b || isLower b.
Definition isASCII (b : byte) : bool := code b <? 128.

(* ================================================================== *)
(** ** The Go library functions the program calls *)

Module GoLib.

(** *** unicode/utf8 *)

Definition RuneError : Z := 65533.  (* U+FFFD *)

Definition isCont (b : byte) : bool := (128 <=? code b) && (code b <=? 191).
Definition inRange (lo hi : Z) (b : byte) : bool :=
  (lo <=? code b) && (code b <=? hi).

(** [utf8.DecodeRune]: the first codepoint of [s] and its width; an invalid
    or truncated encoding decodes as [(RuneError, 1)]. *)
Definition DecodeRune (s : bytes) : Z * Z :=
  match s with
  | [] => (RuneError, 0)
  | s0 :: t =>
    let c0 := code s0 in
    if c0 <? 128 then (c0, 1)
    else if (c0 <? 194) || (244 <? c0) then (RuneError, 1)
    else
      let sz := if c0 <? 224 then 2 else if c0 <? 240 then 3 else 4 in
      let lo := if c0 =? 224 then 160 else if c0 =? 240 then 144 else 128 in
      let hi := if c0 =? 237 then 159 else if c0 =? 244 then 143 else 191 in
      if len s <? sz then (RuneError, 1)
      else
        match t with
        | s1 :: t1 =>
          if negb (inRange lo hi s1) then (RuneError, 1)
          else if sz <=? 2 then
            (Z.lor (Z.shiftl (Z.land c0 31) 6) (Z.land (code s1) 63), 2)
          else
            match t1 with
            | s2 :: t2 =>
              if negb (isCont s2) then (RuneError, 1)
              else if sz <=? 3 then
                (Z.lor (Z.lor (Z.shiftl (Z.land c0 15) 12)
                              (Z.shiftl (Z.land (code s1) 63) 6))
                       (Z.land (code s2) 63), 3)
              else
                match t2 with
                | s3 :: _ =>
                  if negb (isCont s3) then (RuneError, 1)
                  else
                    (Z.lor (Z.lor (Z.lor (Z.shiftl (Z.land c0 7) 18)
                                         (Z.shiftl (Z.land (code s1) 63) 12))
                                  (Z.shiftl (Z.land (code s2) 63) 6))
                           (Z.land (code s3) 63), 4)
                | [] => (RuneError, 1)
                end
            | [] => (RuneError, 1)
            end
        | [] => (RuneError, 1)
        end
  end.

(** [utf8.AppendRune(nil, r)], which is also [string(r)] and what
    [strings.Builder.WriteRune] appends: a surrogate or out-of-range rune is
    written as U+FFFD. *)
Definition EncodeRune (r : Z) : bytes :=
  if (0 <=? r) && (r <=? 127) then [byteOfZ r]
  else if (0 <=? r) && (r <=? 2047) then
    [byteOfZ (Z.lor 192 (Z.shiftr r 6)); byteOfZ (Z.lor 128 (Z.land r 63))]
  else if (r <? 0) || (1114111 <? r) || ((55296 <=? r) && (r <=? 57343)) then
    [xef; xbf; xbd]
  else if r <=? 65535 then
    [byteOfZ (Z.lor 224 (Z.shiftr r 12));
     byteOfZ (Z.lor 128 (Z.land (Z.shiftr r 6) 63));
     byteOfZ (Z.lor 128 (Z.land r 63))]
  else
    [byteOfZ (Z.lor 240 (Z.shiftr r 18));
     byteOfZ (Z.lor 128 (Z.land (Z.shiftr r 12) 63));
     byteOfZ (Z.lor 128 (Z.land (Z.shiftr r 6) 63));
     byteOfZ (Z.lor 128 (Z.land r 63))].

(** [utf8.RuneCountInString]: the number of codepoints of [s]. *)
Fixpoint RuneCountFrom (fuel : nat) (s : bytes) : Z :=
  match fuel with
  | O => 0
  | S f =>
    match s with
    | [] => 0
    | _ => 1 + RuneCountFrom f (sliceFrom s (snd (DecodeRune s)))
    end
  end.

Definition RuneCount (s : bytes) : Z := RuneCountFrom (length s) s.

(** *** strings *)

Fixpoint HasPrefix (s prefix : bytes) : bool :=
  match prefix, s with
  | [], _ => true
  | p :: ps, c :: cs => Byte.eqb c p && HasPrefix cs ps
  | _ :: _, [] => false
  end.

(** [strings.Index(s, sub)]: offset of the first occurrence, or [-1]. *)
Fixpoint Index (s sub : bytes) : Z :=
  if HasPrefix s sub then 0
  else
    match s with
    | [] => -1
    | _ :: t => let k := Index t sub in if k =? -1 then -1 else k + 1
    end.

Definition Contains (s sub : bytes) : bool := 0 <=? Index s sub.

(** [strings.Split(s, "\n")]. *)
Fixpoint SplitLines (s : bytes) : list bytes :=
  match s with
  | [] => [[]]
  | c :: t =>
    if Byte.eqb c NEWLINE then [] :: SplitLines t
    else
      match SplitLines t with
      | l :: ls => (c :: l) :: ls
      | [] => [[c]]
      end
  end.

(** The encodings of the codepoints for which [unicode.IsSpace] holds. *)
Definition spaceRunes : list bytes :=
  [ [x09]; [x0a]; [x0b]; [x0c]; [x0d]; [x20];
    [xc2; x85]; [xc2; xa0]; [xe1; x9a; x80];
    [xe2; x80; x80]; [xe2; x80; x81]; [xe2; x80; x82]; [xe2; x80; x83];
    [xe2; x80; x84]; [xe2; x80; x85]; [xe2; x80; x86]; [xe2; x80; x87];
    [xe2; x80; x88]; [xe2; x80; x89]; [xe2; x80; x8a];
    [xe2; x80; xa8]; [xe2; x80; xa9]; [xe2; x80; xaf];
    [xe2; x81; x9f]; [xe3; x80; x80] ].

(** Width of the space codepoint [s] starts with, [0] if it starts with none. *)
Definition leadingSpace (s : bytes) : nat :=
  match find (HasPrefix s) spaceRunes with
  | Some r => length r
  | None => O
  end.

Fixpoint TrimLeftSpace (fuel : nat) (s : bytes) : bytes :=
  match fuel with
  | O => s
  | S f =>
    match leadingSpace s with
    | O => s
    | n => TrimLeftSpace f (skipn n s)
    end
  end.

(** Width of the space codepoint [s] ends with. *)
Definition trailingSpace (s : bytes) : nat :=
  match find (fun r => HasPrefix (rev s) (rev r)) spaceRunes with
  | Some r => length r
  | None => O
  end.

Fixpoint TrimRightSpace (fuel : nat) (s : bytes) : bytes :=
  match fuel with
  | O => s
  | S f =>
    match trailingSpace s with
    | O => s
    | n => TrimRightSpace f (firstn (length s - n) s)
    end
  end.

(** [strings.TrimSpace]. *)
Definition TrimSpace (s : bytes) : bytes :=
  let l := TrimLeftSpace (length s) s in
  TrimRightSpace (length l) l.

(** [strings.ToLower] restricted to ASCII input, where it maps [A-Z] to
    [a-z] byte by byte. *)
Definition asciiToLower (s : bytes) : bytes :=
  map (fun b => if isUpper b then byteOfZ (code b + 32) else b) s.

(** [fmt.Sprintf("%d", n)]. *)
Definition Itoa (n : Z) : bytes :=
  B (NilZero.string_of_int (Z.to_int n)).

End GoLib.

(* ================================================================== *)
(** ** search.go: the position mapper *)

(** The parameter bytes of a CSI sequence:
    [for j < len(s) && ((s[j] >= '0' && s[j] <= '9') || s[j] == ';') { j++ }] *)
Fixpoint skipCSIParams (fuel : nat) (s : bytes) (j : Z) : Z :=
  match fuel with
  | O => j
  | S f =>
    if (j <? len s) && (isDigit (at_ s j) || Byte.eqb (at_ s j) x3b)
    then skipCSIParams f s (j + 1)
    else j
  end.

(** The body of an OSC sequence, up to and including ESC-backslash or BEL. *)
Fixpoint skipOSC (fuel : nat) (s : bytes) (j : Z) : Z :=
  match fuel with
  | O => j
  | S f =>
    if j <? len s then
      if (j <? len s - 1) && Byte.eqb (at_ s j) ESC
         && Byte.eqb (at_ s (j + 1)) BACKSLASH
      then j + 2
      else if Byte.eqb (at_ s j) BEL then j + 1
      else skipOSC f s (j + 1)
    else j
  end.

(** The scanner state of [stripANSIWithMapping]: the index [i], the plain
    bytes and the position map built so far. *)
Record stripState := mkStrip {
  st_i : Z;
  st_plain : bytes;
  st_posMap : list Z
}.

Definition stripStep (s : bytes) (st : stripState) : stripState :=
  let i := st_i st in
  if (i <? len s - 1) && Byte.eqb (at_ s i) ESC then
    if Byte.eqb (at_ s (i + 1)) LBRACKET then
      let j := skipCSIParams (length s) s (i + 2) in
      let j := if j <? len s then j + 1 else j in
      mkStrip j (st_plain st) (st_posMap st)
    else if Byte.eqb (at_ s (i + 1)) RBRACKET then
      let j := skipOSC (length s) s (i + 2) in
      mkStrip j (st_plain st) (st_posMap st)
    else
      mkStrip (i + 1) (st_plain st ++ [at_ s i]) (st_posMap st ++ [i])
  else
    mkStrip (i + 1) (st_plain st ++ [at_ s i]) (st_posMap st ++ [i]).

(** [for i < len(s) { ... }] *)
Fixpoint stripLoop (fuel : nat) (s : bytes) (st : stripState) : stripState :=
  match fuel with
  | O => st
  | S f =>
    if st_i st <? len s then stripLoop f s (stripStep s st) else st
  end.

Definition stripANSIWithMapping (s : bytes) : bytes * list Z :=
  let st := stripLoop (length s) s (mkStrip 0 [] []) in
  (st_plain st, st_posMap st).

(** hyperlinks.go *)
Definition stripANSI (s : bytes) : bytes := fst (stripANSIWithMapping s).

(* ================================================================== *)
(** ** search.go: the search state *)

(** The fields of [Config] that the modelled code reads
    ([config.Colors.HyperlinkUnderline] and
    [config.Colors.HyperlinkHoveredUnderline]). *)
Record Config := mkConfig {
  HyperlinkUnderline : bytes;
  HyperlinkHoveredUnderline : bytes
}.

Record SearchMatch := mkMatch {
  lineNumber : Z;
  column : Z;          (* column in the plain text (without ANSI codes) *)
  originalColumn : Z;  (* column in the original text (with ANSI codes) *)
  text : bytes
}.

Record SearchState := mkSearch {
  active : bool;
  term : bytes;
  matches : list SearchMatch;
  currentIndex : Z;
  caseSensitive : bool;
  config : option Config
}.

(** The zero value [SearchMatch{}]. *)
Definition zeroMatch : SearchMatch := mkMatch 0 0 0 [].

(** [l[i]]; [None] is Go's index-out-of-range fault. *)
Definition index {A} (l : list A) (i : Z) : option A :=
  if (0 <=? i) && (i <? Z.of_nat (length l)) then nth_error l (Z.to_nat i)
  else None.

Definition NewSearchState (cfg : option Config) : SearchState :=
  mkSearch false [] [] (-1) false cfg.

Definition Clear (s : SearchState) : SearchState :=
  mkSearch false [] [] (-1) (caseSensitive s) (config s).

Definition setMatches (s : SearchState) (ms : list SearchMatch) : SearchState :=
  mkSearch (active s) (term s) ms (currentIndex s) (caseSensitive s) (config s).

Definition setCurrentIndex (s : SearchState) (i : Z) : SearchState :=
  mkSearch (active s) (term s) (matches s) i (caseSensitive s) (config s).

Definition setTerm (s : SearchState) (t : bytes) : SearchState :=
  mkSearch (active s) t (matches s) (currentIndex s) (caseSensitive s) (config s).

Definition isEmpty (s : bytes) : bool :=
  match s with [] => true | _ => false end.

Section Search.

(** [strings.ToLower], a Unicode table the program does not define. *)
Variable ToLower : bytes -> bytes.

(** The occurrences of [searchTerm] in one line, from [index] on:

    [for { pos := strings.Index(searchLine[index:], searchTerm); ... }]

    [None] stands for a run that yields no list: a slice fault at
    [searchLine[index:]], or a loop still running when the fuel is spent. *)
Fixpoint findInLine (fuel : nat) (lineNum : Z) (plainLine searchLine
    searchTerm : bytes) (posMap : list Z) (idx : Z)
    (acc : list SearchMatch) : option (list SearchMatch) :=
  match fuel with
  | O => None
  | S f =>
    if (idx <? 0) || (len searchLine <? idx) then None
    else
      let pos := GoLib.Index (sliceFrom searchLine idx) searchTerm in
      if pos =? -1 then Some acc
      else
        let actualPos := idx + pos in
        let originalPos :=
          if actualPos <? Z.of_nat (length posMap)
          then nth (Z.to_nat actualPos) posMap 0 else 0 in
        let matchText :=
          if actualPos + len searchTerm <=? len plainLine
          then slice plainLine actualPos (actualPos + len searchTerm)
          else [] in
        findInLine f lineNum plainLine searchLine searchTerm posMap
          (actualPos + len searchTerm)
          (acc ++ [mkMatch lineNum actualPos originalPos matchText])
  end.

(** [for lineNum, line := range lines { ... }] *)
Fixpoint findInLines (cs : bool) (searchTerm : bytes) (lines : list bytes)
    (lineNum : Z) (acc : list SearchMatch) : option (list SearchMatch) :=
  match lines with
  | [] => Some acc
  | line :: rest =>
    let '(plainLine, posMap) := stripANSIWithMapping line in
    let searchLine := if cs then plainLine else ToLower plainLine in
    match findInLine (S (length searchLine)) lineNum plainLine searchLine
            searchTerm posMap 0 acc with
    | Some acc' => findInLines cs searchTerm rest (lineNum + 1) acc'
    | None => None
    end
  end.

Definition findAllMatches (s : SearchState) (content : bytes)
    : option SearchState :=
  let s := setMatches s [] in
  if isEmpty (term s) then Some s
  else
    let lines := GoLib.SplitLines content in
    let searchTerm := if caseSensitive s then term s else ToLower (term s) in
    match findInLines (caseSensitive s) searchTerm lines 0 [] with
    | Some ms => Some (setMatches s ms)
    | None => None
    end.

Definition SetTerm (s : SearchState) (t content : bytes)
    : option SearchState :=
  match findAllMatches (setTerm s t) content with
  | Some s' =>
    if 0 <? Z.of_nat (length (matches s')) then Some (setCurrentIndex s' 0)
    else Some s'
  | None => None
  end.

End Search.

(** [NextMatch], [PrevMatch] and [GetCurrentMatch] return the state after the
    call and the pair the Go method returns; [None] is an index fault at
    [s.matches[s.currentIndex]].  Go's [%] truncates towards zero: [Z.rem]. *)
Definition NextMatch (s : SearchState)
    : option (SearchState * (SearchMatch * bool)) :=
  if Z.of_nat (length (matches s)) =? 0 then Some (s, (zeroMatch, false))
  else
    let s' := setCurrentIndex s
                (Z.rem (currentIndex s + 1) (Z.of_nat (length (matches s)))) in
    match index (matches s') (currentIndex s') with
    | Some m => Some (s', (m, true))
    | None => None
    end.

Definition PrevMatch (s : SearchState)
    : option (SearchState * (SearchMatch * bool)) :=
  if Z.of_nat (length (matches s)) =? 0 then Some (s, (zeroMatch, false))
  else
    let s1 := setCurrentIndex s (currentIndex s - 1) in
    let s2 := if currentIndex s1 <? 0
              then setCurrentIndex s1 (Z.of_nat (length (matches s1)) - 1)
              else s1 in
    match index (matches s2) (currentIndex s2) with
    | Some m => Some (s2, (m, true))
    | None => None
    end.

Definition GetCurrentMatch (s : SearchState) : option (SearchMatch * bool) :=
  if (currentIndex s <? 0)
     || (Z.of_nat (length (matches s)) <=? currentIndex s)
  then Some (zeroMatch, false)
  else
    match index (matches s) (currentIndex s) with
    | Some m => Some (m, true)
    | None => None
    end.

Definition ToggleCaseSensitive (s : SearchState) : SearchState :=
  mkSearch (active s) (term s) (matches s) (currentIndex s)
           (negb (caseSensitive s)) (config s).

(* ================================================================== *)
(** ** hyperlinks.go: the hyperlink injector *)

Fixpoint bytes_eqb (a b : bytes) : bool :=
  match a, b with
  | [], [] => true
  | x :: a', y :: b' => Byte.eqb x y && bytes_eqb a' b'
  | _, _ => false
  end.

(** One entry of [validMatches]:
    [{openBracketPos, matchEnd, textStart, textEnd, urlStart, urlEnd}]. *)
Record linkMatch := mkLink {
  matchStart : Z;
  matchEnd : Z;
  textStart : Z;
  textEnd : Z;
  urlStart : Z;
  urlEnd : Z
}.

(** One submatch-index vector of [closeBracketPattern]:
    whole match [cb_start, cb_end), group 1 [cb_urlStart, cb_urlEnd). *)
Record closeMatch := mkClose {
  cb_start : Z;
  cb_end : Z;
  cb_urlStart : Z;
  cb_urlEnd : Z
}.

(** The first [')'] at or after [j]. *)
Fixpoint findRParen (fuel : nat) (s : bytes) (j : Z) : option Z :=
  match fuel with
  | O => None
  | S f =>
    if j <? len s then
      if Byte.eqb (at_ s j) RPAREN then Some j else findRParen f s (j + 1)
    else None
  end.

(** The regular expression [\]\(([^)]+)\)] anchored at [p]: the class
    excludes [')'], so the group is the run up to the first [')'], which
    must not be empty. *)
Definition matchCloseBracketAt (s : bytes) (p : Z) : option closeMatch :=
  if (p + 1 <? len s) && Byte.eqb (at_ s p) RBRACKET
     && Byte.eqb (at_ s (p + 1)) LPAREN
  then
    match findRParen (length s) s (p + 2) with
    | Some q => if p + 2 <? q then Some (mkClose p (q + 1) (p + 2) q) else None
    | None => None
    end
  else None.

(** [closeBracketPattern.FindAllStringSubmatchIndex(result, -1)]: leftmost
    matches, each search resuming where the previous match ended. *)
Fixpoint findAllCloseBracket (fuel : nat) (s : bytes) (p : Z)
    : list closeMatch :=
  match fuel with
  | O => []
  | S f =>
    if p <? len s then
      match matchCloseBracketAt s p with
      | Some m => m :: findAllCloseBracket f s (cb_end m)
      | None => findAllCloseBracket f s (p + 1)
      end
    else []
  end.

(** [for pos := closeBracketPos - 1; pos >= 0; pos-- { ... }]: the position
    of the nearest ['['] not preceded by ESC, or [-1]. *)
Fixpoint findOpenBracket (fuel : nat) (result : bytes) (pos : Z) : Z :=
  match fuel with
  | O => -1
  | S f =>
    if 0 <=? pos then
      if Byte.eqb (at_ result pos) LBRACKET then
        if (0 <? pos) && Byte.eqb (at_ result (pos - 1)) ESC
        then findOpenBracket f result (pos - 1)
        else pos
      else findOpenBracket f result (pos - 1)
    else -1
  end.

Definition openBracketFor (result : bytes) (closeBracketPos : Z) : Z :=
  findOpenBracket (S (length result)) result (closeBracketPos - 1).

(** The first loop of [addHyperlinks]: the occurrences that have an opening
    bracket. *)
Fixpoint collectValid (result : bytes) (ms : list closeMatch)
    : list linkMatch :=
  match ms with
  | [] => []
  | m :: rest =>
    let openBracketPos := openBracketFor result (cb_start m) in
    if 0 <=? openBracketPos then
      mkLink openBracketPos (cb_end m) (openBracketPos + 1) (cb_start m)
             (cb_urlStart m) (cb_urlEnd m)
      :: collectValid result rest
    else collectValid result rest
  end.

(** The URL recovered from the parenthesised part. *)
Definition recoverURL (urlPartWithANSI : bytes) : bytes :=
  let url := GoLib.TrimSpace (stripANSI urlPartWithANSI) in
  let idx := GoLib.Index url [SPACE] in
  if negb (idx =? -1) then slice url 0 idx else url.

(** [!strings.Contains(url, "://") && !strings.HasPrefix(url, "mailto:")] *)
Definition notURL (url : bytes) : bool :=
  negb (GoLib.Contains url (B "://")) && negb (GoLib.HasPrefix url (B "mailto:")).

Section Hyperlinks.

(** [hexToANSI], defined in a file of the program that is not modelled;
    [None] is its error result. *)
Variable hexToANSI : bytes -> option Z.

Definition plainUnderline (url text : bytes) : bytes :=
  [ESC] ++ B "[4m" ++ [ESC] ++ B "]8;;" ++ url ++ [ESC; BACKSLASH] ++ text
  ++ [ESC] ++ B "]8;;" ++ [ESC; BACKSLASH] ++ [ESC] ++ B "[24m".

Definition colouredUnderline (colorCode : Z) (url text : bytes) : bytes :=
  [ESC] ++ B "[58;5;" ++ GoLib.Itoa colorCode ++ B "m" ++ [ESC] ++ B "[4m"
  ++ [ESC] ++ B "]8;;" ++ url ++ [ESC; BACKSLASH] ++ text
  ++ [ESC] ++ B "]8;;" ++ [ESC; BACKSLASH] ++ [ESC] ++ B "[59m"
  ++ [ESC] ++ B "[24m".

Definition underlineColorFor (cfg : option Config) (isHovered : bool)
    : bytes :=
  match cfg with
  | Some c =>
    if isHovered && negb (isEmpty (HyperlinkHoveredUnderline c))
    then HyperlinkHoveredUnderline c
    else if negb (isEmpty (HyperlinkUnderline c)) then HyperlinkUnderline c
    else []
  | None => []
  end.

Definition hyperlinkFor (cfg : option Config) (hoveredURL url text : bytes)
    : bytes :=
  let isHovered := negb (isEmpty hoveredURL) && bytes_eqb url hoveredURL in
  let underlineColor := underlineColorFor cfg isHovered in
  if negb (isEmpty underlineColor) then
    match hexToANSI underlineColor with
    | Some colorCode => colouredUnderline colorCode url text
    | None => plainUnderline url text
    end
  else plainUnderline url text.

(** One iteration of the second loop; [None] is a slice fault. *)
Definition processMatch (cfg : option Config) (hoveredURL : bytes)
    (result : bytes) (m : linkMatch) : option bytes :=
  match sliceChecked result (textStart m) (textEnd m),
        sliceChecked result (urlStart m) (urlEnd m) with
  | Some textWithANSI, Some urlPartWithANSI =>
    let url := recoverURL urlPartWithANSI in
    if notURL url then Some result
    else
      match sliceChecked result 0 (matchStart m),
            sliceChecked result (matchEnd m) (len result) with
      | Some before, Some after =>
        Some (before ++ hyperlinkFor cfg hoveredURL url textWithANSI ++ after)
      | _, _ => None
      end
  | _, _ => None
  end.

(** [for i := len(validMatches) - 1; i >= 0; i-- { ... }], over the
    reversed list. *)
Fixpoint processAll (cfg : option Config) (hoveredURL : bytes)
    (result : bytes) (revMatches : list linkMatch) : option bytes :=
  match revMatches with
  | [] => Some result
  | m :: rest =>
    match processMatch cfg hoveredURL result m with
    | Some result' => processAll cfg hoveredURL result' rest
    | None => None
    end
  end.

Definition closeBracketMatches (rendered : bytes) : list closeMatch :=
  findAllCloseBracket (S (length rendered)) rendered 0.

(** [originalMarkdown] is not used by the source either. *)
Definition addHyperlinks (rendered originalMarkdown : bytes)
    (cfg : option Config) (hoveredURL : bytes) : option bytes :=
  let validMatches := collectValid rendered (closeBracketMatches rendered) in
  processAll cfg hoveredURL rendered (rev validMatches).

End Hyperlinks.

(* ================================================================== *)
(** ** main.go: the link hit-table builder *)

Record linkPosition := mkLinkPos {
  lp_url : bytes;
  lp_text : bytes;
  lp_x : Z;
  lp_y : Z;
  lp_width : Z
}.

(** The run [[^\x1b]*] starting at [j]. *)
Fixpoint skipNonESC (fuel : nat) (s : bytes) (j : Z) : Z :=
  match fuel with
  | O => j
  | S f =>
    if (j <? len s) && negb (Byte.eqb (at_ s j) ESC)
    then skipNonESC f s (j + 1) else j
  end.

Definition startsAt (s : bytes) (p : Z) (lit : bytes) : bool :=
  (0 <=? p) && GoLib.HasPrefix (sliceFrom s p) lit.

Definition osc8Open : bytes := [ESC] ++ B "]8;;".
Definition osc8Close : bytes := [ESC] ++ B "]8;;" ++ [ESC; BACKSLASH].

(** The group [((?:[^\x1b]|\x1b\[[0-9;]*m)+)] from [k] on: the position where
    the repetition stops.  Each iteration takes one byte other than ESC or
    one sequence ESC [ digits-and-semicolons m; the two alternatives start
    with different bytes, so the repetition is deterministic. *)
Fixpoint linkTextEnd (fuel : nat) (s : bytes) (k : Z) : Z :=
  match fuel with
  | O => k
  | S f =>
    if k <? len s then
      if negb (Byte.eqb (at_ s k) ESC) then linkTextEnd f s (k + 1)
      else if startsAt s (k + 1) [LBRACKET] then
        let j := skipCSIParams (length s) s (k + 2) in
        if startsAt s j (B "m") then linkTextEnd f s (j + 1) else k
      else k
    else k
  end.

(** One submatch-index vector of [hyperlinkPattern]. *)
Record hyperlinkMatch := mkHyper {
  hm_start : Z;
  hm_end : Z;
  hm_urlStart : Z;
  hm_urlEnd : Z;
  hm_textStart : Z;
  hm_textEnd : Z
}.

(** The regular expression
    [\x1b\]8;;([^\x1b]+)\x1b\\((?:[^\x1b]|\x1b\[[0-9;]*m)+)\x1b\]8;;\x1b\\]
    anchored at [p]. *)
Definition matchHyperlinkAt (s : bytes) (p : Z) : option hyperlinkMatch :=
  if startsAt s p osc8Open then
    let u0 := p + 5 in
    let u1 := skipNonESC (length s) s u0 in
    if (u0 <? u1) && startsAt s u1 [ESC; BACKSLASH] then
      let t0 := u1 + 2 in
      let t1 := linkTextEnd (length s) s t0 in
      if (t0 <? t1) && startsAt s t1 osc8Close
      then Some (mkHyper p (t1 + 7) u0 u1 t0 t1)
      else None
    else None
  else None.

(** [hyperlinkPattern.FindAllStringSubmatchIndex(line, -1)] *)
Fixpoint findAllHyperlinks (fuel : nat) (s : bytes) (p : Z)
    : list hyperlinkMatch :=
  match fuel with
  | O => []
  | S f =>
    if p <? len s then
      match matchHyperlinkAt s p with
      | Some m => m :: findAllHyperlinks f s (hm_end m)
      | None => findAllHyperlinks f s (p + 1)
      end
    else []
  end.

(** [regexp.ReplaceAllString(s, "")] for a pattern whose match anchored at
    [p] ends at [matchEnd s p]. *)
Fixpoint removeAll (matchEnd : bytes -> Z -> option Z) (fuel : nat)
    (s : bytes) (p : Z) : bytes :=
  match fuel with
  | O => []
  | S f =>
    if p <? len s then
      match matchEnd s p with
      | Some e => removeAll matchEnd f s e
      | None => at_ s p :: removeAll matchEnd f s (p + 1)
      end
    else []
  end.

(** [\x1b\]8;;[^\x1b]*\x1b\\] *)
Definition osc8PatternAt (s : bytes) (p : Z) : option Z :=
  if startsAt s p osc8Open then
    let u1 := skipNonESC (length s) s (p + 5) in
    if startsAt s u1 [ESC; BACKSLASH] then Some (u1 + 2) else None
  else None.

(** [\x1b\[[0-9;]*m] *)
Definition ansiPatternAt (s : bytes) (p : Z) : option Z :=
  if startsAt s p [ESC; LBRACKET] then
    let j := skipCSIParams (length s) s (p + 2) in
    if startsAt s j (B "m") then Some (j + 1) else None
  else None.

Definition stripAllEscapeSequences (s : bytes) : bytes :=
  let s := removeAll osc8PatternAt (S (length s)) s 0 in
  removeAll ansiPatternAt (S (length s)) s 0.

(** The body of [for _, match := range matches].  The slices are taken at
    submatch indices of [line], which are in range. *)
Definition linkOfMatch (line : bytes) (y : Z) (m : hyperlinkMatch)
    : linkPosition :=
  let url := slice line (hm_urlStart m) (hm_urlEnd m) in
  let text := slice line (hm_textStart m) (hm_textEnd m) in
  let visibleText := stripANSI text in
  let beforeLink := slice line 0 (hm_textStart m) in
  let visibleBefore := stripAllEscapeSequences beforeLink in
  let x := len visibleBefore in
  mkLinkPos url visibleText x y (len visibleText).

Fixpoint extractFromLines (lines : list bytes) (y : Z) : list linkPosition :=
  match lines with
  | [] => []
  | line :: rest =>
    map (linkOfMatch line y) (findAllHyperlinks (S (length line)) line 0)
    ++ extractFromLines rest (y + 1)
  end.

(** The writes to the debug file are not modelled. *)
Definition extractLinkPositions (content : bytes) : list linkPosition :=
  extractFromLines (GoLib.SplitLines content) 0.

(* ================================================================== *)
(** ** main.go: the viewport clipper *)

Definition decodeRuneInBytes (b : bytes) : Z * Z :=
  match b with
  | [] => (0, 0)
  | b0 :: _ =>
    if code b0 <? 128 then (code b0, 1)
    else
      let r := fst (GoLib.DecodeRune b) in
      (r, len (GoLib.EncodeRune r))
  end.

(** [for i < len(bytes) && !(letter bytes[i]) { i++ }] *)
Fixpoint skipToLetter (fuel : nat) (s : bytes) (i : Z) : Z :=
  match fuel with
  | O => i
  | S f =>
    if (i <? len s) && negb (isLetter (at_ s i))
    then skipToLetter f s (i + 1) else i
  end.

(** [for i < len(bytes)-1 { if ESC-backslash { i += 2; break }; i++ }] *)
Fixpoint skipOSCBody (fuel : nat) (s : bytes) (i : Z) : Z :=
  match fuel with
  | O => i
  | S f =>
    if i <? len s - 1 then
      if Byte.eqb (at_ s i) ESC && (i + 1 <? len s)
         && Byte.eqb (at_ s (i + 1)) BACKSLASH
      then i + 2
      else skipOSCBody f s (i + 1)
    else i
  end.

Record truncState := mkTrunc {
  tr_i : Z;
  tr_visibleCount : Z;
  tr_result : bytes
}.

Definition truncStep (s : bytes) (st : truncState) : truncState :=
  let i := tr_i st in
  if Byte.eqb (at_ s i) ESC then
    let escStart := i in
    let i := i + 1 in
    if (i <? len s) && Byte.eqb (at_ s i) LBRACKET then
      let i := skipToLetter (length s) s (i + 1) in
      let i := if i <? len s then i + 1 else i in
      mkTrunc i (tr_visibleCount st) (tr_result st ++ slice s escStart i)
    else if (i <? len s) && Byte.eqb (at_ s i) RBRACKET then
      let i := skipOSCBody (length s) s (i + 1) in
      mkTrunc i (tr_visibleCount st) (tr_result st ++ slice s escStart i)
    else
      mkTrunc (escStart + 1) (tr_visibleCount st)
              (tr_result st ++ [at_ s escStart])
  else
    let '(r, size) := decodeRuneInBytes (sliceFrom s i) in
    mkTrunc (i + size) (tr_visibleCount st + 1)
            (tr_result st ++ GoLib.EncodeRune r).

(** [for i < len(bytes) && visibleCount < n { ... }] *)
Fixpoint truncLoop (fuel : nat) (s : bytes) (n : Z) (st : truncState)
    : truncState :=
  match fuel with
  | O => st
  | S f =>
    if (tr_i st <? len s) && (tr_visibleCount st <? n)
    then truncLoop f s n (truncStep s st) else st
  end.

Definition truncateVisibleChars (s : bytes) (n : Z) : bytes :=
  tr_result (truncLoop (length s) s n (mkTrunc 0 0 [])).

(** The number of visible characters of [s], as the clipper's scanner counts
    them: the count it reaches when no limit stops it. *)
Definition visibleCount (s : bytes) : Z :=
  tr_visibleCount (truncLoop (length s) s (len s + 1) (mkTrunc 0 0 [])).

(* ================================================================== *)
(** ** Concrete lines used in the examples below *)

(** U+00E9, two bytes. *)
Definition eAcute : bytes := [xc3; xa9].

(** U+2022, the bullet the renderer puts before a list item, three bytes. *)
Definition bullet : bytes := [xe2; x80; xa2].

(** ["ab" ESC "[31mcd"] *)
Definition styledLine : bytes := B "ab" ++ [ESC] ++ B "[31mcd".

(** [ESC "[4:3mX"]: the curly-underline sequence (its parameters are
    separated by a colon) followed by one visible character. *)
Definition curlyUnderlined : bytes := [ESC] ++ B "[4:3mX".

(* ================================================================== *)
(** ** The states a search can be in *)

(** The search states the program can build: from [NewSearchState], by the
    methods that change a [SearchState]. *)
Inductive reachable (ToLower : bytes -> bytes) : SearchState -> Prop :=
| reach_new cfg : reachable ToLower (NewSearchState cfg)
| reach_Clear s : reachable ToLower s -> reachable ToLower (Clear s)
| reach_SetTerm s t content s' :
    reachable ToLower s -> SetTerm ToLower s t content = Some s' ->
    reachable ToLower s'
| reach_NextMatch s s' r :
    reachable ToLower s -> NextMatch s = Some (s', r) -> reachable ToLower s'
| reach_PrevMatch s s' r :
    reachable ToLower s -> PrevMatch s = Some (s', r) -> reachable ToLower s'
| reach_Toggle s :
    reachable ToLower s -> reachable ToLower (ToggleCaseSensitive s).

(** A search started on a state that has never searched, with the given
    case-sensitivity flag. *)
Definition freshSearch (ToLower : bytes -> bytes) (cs : bool)
    (cfg : option Config) (t content : bytes) : option SearchState :=
  SetTerm ToLower (mkSearch false [] [] (-1) cs cfg) t content.

Definition fooContent : bytes := B "a foo b foo c".
Definition mixedCaseContent : bytes := B "foo FOO Foo".

(** The state after searching "foo" in ["a foo b foo c"]. *)
Definition afterFoo : option SearchState :=
  SetTerm GoLib.asciiToLower (NewSearchState None) (B "foo") fooContent.

(** ... and then searching "zzz", which is not there. *)
Definition afterFooThenZzz : option SearchState :=
  match afterFoo with
  | Some s => SetTerm GoLib.asciiToLower s (B "zzz") fooContent
  | None => None
  end.

(** The state after searching "Foo", case-insensitively, in
    ["foo FOO Foo"]. *)
Definition afterMixed : option SearchState :=
  SetTerm GoLib.asciiToLower (NewSearchState None) (B "Foo") mixedCaseContent.

Definition stateOf (o : option SearchState) : SearchState :=
  match o with
  | Some s => s
  | None => NewSearchState None
  end.

(* ================================================================== *)
(** ** The order of the match list *)

(** The term as [findAllMatches] searches it. *)
Definition searchTermOf (ToLower : bytes -> bytes) (s : SearchState)
    : bytes :=
  if caseSensitive s then term s else ToLower (term s).

(** Line [k] of [content] as [findAllMatches] searches it. *)
Definition searchLineOf (ToLower : bytes -> bytes) (cs : bool)
    (content : bytes) (k : Z) : bytes :=
  let plainLine :=
    fst (stripANSIWithMapping (nth (Z.to_nat k) (GoLib.SplitLines content) []))
  in if cs then plainLine else ToLower plainLine.

(** Navigation order: by line, then by column. *)
Definition matchBefore (m1 m2 : SearchMatch) : Prop :=
  lineNumber m1 < lineNumber m2
  \/ (lineNumber m1 = lineNumber m2 /\ column m1 < column m2).

(** [m2] is the first occurrence of [searchTerm] in [searchLine] at or after
    the end of [m1]. *)
Definition resumesAfter (searchLine searchTerm : bytes)
    (m1 m2 : SearchMatch) : Prop :=
  let resume := column m1 + len searchTerm in
  0 <= GoLib.Index (sliceFrom searchLine resume) searchTerm
  /\ column m2 = resume + GoLib.Index (sliceFrom searchLine resume) searchTerm.

(** What holds between a match and the one recorded next. *)
Definition nextRecorded (lineOf : Z -> bytes) (searchTerm : bytes)
    (m1 m2 : SearchMatch) : Prop :=
  matchBefore m1 m2
  /\ (lineNumber m1 = lineNumber m2 ->
      resumesAfter (lineOf (lineNumber m1)) searchTerm m1 m2).

(* ================================================================== *)
(** ** The hyperlink injector as the specification words it *)

(** The backward scan as the specification words it: the nearest unescaped
    ['['] "on the same line", the occurrence being rejected when none is
    found "before the start of line".  The scan of the source,
    [findOpenBracket], does not look for the start of the line. *)
Fixpoint findOpenBracketOnLine_spec (fuel : nat) (result : bytes) (pos : Z)
    : Z :=
  match fuel with
  | O => -1
  | S f =>
    if 0 <=? pos then
      if Byte.eqb (at_ result pos) NEWLINE then -1
      else if Byte.eqb (at_ result pos) LBRACKET then
        if (0 <? pos) && Byte.eqb (at_ result (pos - 1)) ESC
        then findOpenBracketOnLine_spec f result (pos - 1)
        else pos
      else findOpenBracketOnLine_spec f result (pos - 1)
    else -1
  end.

(** The URL as the specification words it: the parenthesised part stripped
    of control sequences and truncated at its first space.  The source,
    [recoverURL], trims surrounding white space first. *)
Definition recoverURL_spec (urlPartWithANSI : bytes) : bytes :=
  let url := stripANSI urlPartWithANSI in
  let idx := GoLib.Index url [SPACE] in
  if negb (idx =? -1) then slice url 0 idx else url.

(** [hexToANSI] for the examples: every colour is code 214. *)
Definition hexToANSI_214 (hex : bytes) : option Z := Some 214.

(** A link whose text is wrapped over two lines. *)
Definition multiLineLink : bytes := B "[a" ++ [NEWLINE] ++ B "b](http://x.y)".

(** A link with a space after the opening parenthesis. *)
Definition spacedLink : bytes := B "[a]( http://x.y)".

(** [ESC "[32mok](http://q.r) [b](foo)"]: an occurrence whose only bracket
    belongs to a style sequence, and one whose parenthesised part is not a
    URL. *)
Definition noLinkLine : bytes := [ESC] ++ B "[32mok](http://q.r) [b](foo)".

(** [ "[home](https://a.b)" ]: a link that opens at offset 0. *)
Definition linkAtZero : bytes := B "[home](https://a.b)".

(* ================================================================== *)
(** ** Concrete lines for the link table and the clipper *)

(** A list item whose link text ends in U+00E9:
    bullet, space, underline on, the link to http://a.b around "caf"
    U+00E9, underline off. *)
Definition bulletLinkLine : bytes :=
  bullet ++ B " " ++ [ESC] ++ B "[4m" ++ osc8Open ++ B "http://a.b"
  ++ [ESC; BACKSLASH] ++ B "caf" ++ eAcute ++ osc8Close ++ [ESC] ++ B "[24m".

(** ["ab" ESC "[0m"]: two visible characters and a trailing reset. *)
Definition resetAfterText : bytes := B "ab" ++ [ESC] ++ B "[0m".

(** A byte that starts no UTF-8 encoding, then "abc". *)
Definition invalidThenText : bytes := [xff] ++ B "abc".

(* ================================================================== *)
(** ** Invariants *)

(** The cursor of a state that holds matches points at one of them; the
    cursor of a state that holds none is never below [-1]. *)
Definition cursorOK (s : SearchState) : Prop :=
  -1 <= currentIndex s
  /\ (0 < Z.of_nat (length (matches s)) ->
      0 <= currentIndex s < Z.of_nat (length (matches s))).

(** The clipper has copied the line [s] up to its index. *)
Definition copied (s : bytes) (st : truncState) : Prop :=
  0 <= tr_i st <= len s /\ tr_result st = firstn (Z.to_nat (tr_i st)) s.

(** What the scanner has built when its index is [st_i]: offsets below the
    index, in increasing order, and at each offset the plain byte. *)
Definition mapped (s : bytes) (st : stripState) : Prop :=
  0 <= st_i st <= len s
  /\ Forall (fun p => 0 <= p < st_i st) (st_posMap st)
  /\ StronglySorted Z.lt (st_posMap st)
  /\ st_plain st = map (at_ s) (st_posMap st).

(* ================================================================== *)
(** ** What a recorded match is *)

(** [term] occurs in [line] at offset [p]. *)
Definition occursAt (line term : bytes) (p : Z) : Prop :=
  0 <= p /\ GoLib.HasPrefix (sliceFrom line p) term = true.

(** The matches of one line, as the body of the outer loop of
    [findAllMatches] computes them. *)
Definition lineMatches (ToLower : bytes -> bytes) (cs : bool)
    (searchTerm : bytes) (lineNum : Z) (line : bytes)
    : option (list SearchMatch) :=
  let '(plainLine, posMap) := stripANSIWithMapping line in
  let searchLine := if cs then plainLine else ToLower plainLine in
  findInLine (S (length searchLine)) lineNum plainLine searchLine searchTerm
             posMap 0 [].

(** What [findInLine] stores in a match it records at [column m] of line
    [lineNum], whose plain text is [plainLine], searched as [searchLine]. *)
Definition recordedAs (searchTerm : bytes) (lineNum : Z)
    (plainLine searchLine : bytes) (posMap : list Z) (m : SearchMatch)
    : Prop :=
  lineNumber m = lineNum
  /\ occursAt searchLine searchTerm (column m)
  /\ column m + len searchTerm <= len searchLine
  /\ originalColumn m
     = (if column m <? Z.of_nat (length posMap)
        then nth (Z.to_nat (column m)) posMap 0 else 0)
  /\ text m
     = (if column m + len searchTerm <=? len plainLine
        then slice plainLine (column m) (column m + len searchTerm)
        else []).

(* ================================================================== *)
(** ** The text with its links rewritten *)

(** The URL and the text of a match, read in [rendered]. *)
Definition linkURL (rendered : bytes) (m : linkMatch) : bytes :=
  recoverURL (slice rendered (urlStart m) (urlEnd m)).

Definition linkText (rendered : bytes) (m : linkMatch) : bytes :=
  slice rendered (textStart m) (textEnd m).

Section Rewritten.

Variable hexToANSI : bytes -> option Z.
Variables (cfg : option Config) (hoveredURL : bytes).
Variable rendered : bytes.

(** What the hyperlink injector is to return, read from left to right over
    the occurrences of "](" in [rendered], from offset [pos] on: an
    occurrence with no opening bracket, or whose URL fails the shape check,
    is left where it is, with the text around it; an accepted one has its
    span, from the opening bracket to the closing parenthesis, replaced by
    the hyperlink of its text and URL. *)
Fixpoint linksRewritten (occs : list closeMatch) (pos : Z) : bytes :=
  match occs with
  | [] => sliceFrom rendered pos
  | c :: rest =>
    let openBracketPos := openBracketFor rendered (cb_start c) in
    let url := recoverURL (slice rendered (cb_urlStart c) (cb_urlEnd c)) in
    if (openBracketPos <? 0) || notURL url then linksRewritten rest pos
    else
      slice rendered pos openBracketPos
      ++ hyperlinkFor hexToANSI cfg hoveredURL url
           (slice rendered (openBracketPos + 1) (cb_start c))
      ++ linksRewritten rest (cb_end c)
  end.

(** The same over the valid matches, up to offset [P]. *)
Fixpoint segsUpTo (ms : list linkMatch) (pos P : Z) : bytes :=
  match ms with
  | [] => slice rendered pos P
  | m :: rest =>
    if notURL (linkURL rendered m) then segsUpTo rest pos P
    else
      slice rendered pos (matchStart m)
      ++ hyperlinkFor hexToANSI cfg hoveredURL (linkURL rendered m)
           (linkText rendered m)
      ++ segsUpTo rest (matchEnd m) P
  end.

End Rewritten.

(** The offsets of a match are in order. *)
Definition fieldsInOrder (m : linkMatch) : Prop :=
  matchStart m <= textStart m <= textEnd m
  /\ textEnd m <= urlStart m <= urlEnd m /\ urlEnd m <= matchEnd m.

(** The matches lie one after the other between [lo] and [P]. *)
Fixpoint wellSpaced (ms : list linkMatch) (lo P : Z) : Prop :=
  match ms with
  | [] => lo <= P
  | m :: rest =>
    lo <= matchStart m /\ fieldsInOrder m /\ wellSpaced rest (matchEnd m) P
  end.

(** No span, from opening bracket to closing parenthesis, reaches into the
    next one. *)
Definition spansApart (ms : list linkMatch) : Prop :=
  Sorted (fun a b => matchEnd a <= matchStart b) ms.

(** ["x](u) [a](http://x.y) [b](foo)"]: an occurrence with no bracket before
    it, a link, and a bracketed text followed by something that is no URL. *)
Definition mixedLine : bytes := B "x](u) [a](http://x.y) [b](foo)".

(** An image inside a link: both occurrences of "](" go back to the same
    bracket. *)
Definition imageInLink : bytes :=
  B "[![logo](img/logo.png)](https://example.com)".

(* ================================================================== *)
(** ** Well-formed styled lines *)

(** A Unicode scalar value: a codepoint that UTF-8 encodes. *)
Definition isScalar (r : Z) : bool :=
  (0 <=? r) && (r <=? 1114111) && negb ((55296 <=? r) && (r <=? 57343)).

(** The pieces of a styled line (specification, sections 3 and 6): a glyph,
    a style-change sequence or a hyperlink-marker sequence. *)
Inductive token : Type :=
| Glyph (r : Z)                       (* one codepoint *)
| SGR (params : bytes) (final : byte) (* ESC [ digits-and-semicolons letter *)
| OSC (body : bytes).                 (* ESC ] body ESC backslash *)

Definition isParam (b : byte) : bool := isDigit b || Byte.eqb b x3b.

Definition tokenOK (t : token) : bool :=
  match t with
  | Glyph r => isScalar r && negb (r =? 27)
  | SGR params final => forallb isParam params && isLetter final
  | OSC body =>
    forallb (fun b => negb (Byte.eqb b ESC) && negb (Byte.eqb b BEL)) body
  end.

Definition encodeToken (t : token) : bytes :=
  match t with
  | Glyph r => GoLib.EncodeRune r
  | SGR params final => ESC :: LBRACKET :: params ++ [final]
  | OSC body => ESC :: RBRACKET :: body ++ [ESC; BACKSLASH]
  end.

(** The line a list of tokens spells. *)
Definition styledLineOf (toks : list token) : bytes :=
  concat (map encodeToken toks).

(** The bytes of its glyphs. *)
Definition glyphBytes (toks : list token) : bytes :=
  concat (map (fun t => match t with
                        | Glyph r => GoLib.EncodeRune r
                        | _ => []
                        end) toks).

(** The number of its glyphs. *)
Fixpoint glyphCount (toks : list token) : Z :=
  match toks with
  | [] => 0
  | Glyph _ :: rest => 1 + glyphCount rest
  | _ :: rest => glyphCount rest
  end.

(** bullet, space, underline on, "a", U+00E9, reset. *)
Definition listItemTokens : list token :=
  [Glyph 8226; Glyph 32; SGR (B "4") "m"; Glyph 97; Glyph 233;
   SGR (B "0") "m"].

(** A line whose sequences are not of the forms above:
    [ESC "[?" ESC "]1mabc"]. *)
Definition malformedLine : bytes :=
  [ESC] ++ B "[?" ++ [ESC] ++ B "]1mabc".

(* ================================================================== *)
(** * Properties *)

(** Closed goals are settled by running the definitions. *)
Ltac evaluate :=
  vm_compute;
  first [ reflexivity | discriminate | (split; congruence) | congruence ].

(** ** Bytes, slices and library functions *)

Lemma len_nonneg (s : bytes) : 0 <= len s.
Proof. unfold len; lia. Qed.

Lemma len_app (a b : bytes) : len (a ++ b) = len a + len b.
Proof. unfold len; rewrite length_app; lia. Qed.

Lemma len_cons (x : byte) (a : bytes) : len (x :: a) = 1 + len a.
Proof. unfold len; simpl length; lia. Qed.

Lemma eqb_eq (a b : byte) : Byte.eqb a b = true <-> a = b.
Proof. split; [apply Byte.byte_dec_bl | apply Byte.byte_dec_lb]. Qed.

Lemma eqb_refl (a : byte) : Byte.eqb a a = true.
Proof. now apply eqb_eq. Qed.

Lemma code_range (b : byte) : 0 <= code b < 256.
Proof.
  unfold code. pose proof (Byte.to_N_bounded b). lia.
Qed.

Lemma byteOfZ_code (b : byte) : byteOfZ (code b) = b.
Proof.
  unfold byteOfZ. pose proof (code_range b).
  rewrite Z.mod_small by lia. unfold code. rewrite N2Z.id.
  now rewrite Byte.of_to_N.
Qed.

Lemma code_byteOfZ (z : Z) : 0 <= z < 256 -> code (byteOfZ z) = z.
Proof.
  intros H. unfold byteOfZ. rewrite Z.mod_small by lia.
  destruct (Byte.of_N (Z.to_N z)) as [b|] eqn:E.
  - apply Byte.to_of_N in E. unfold code. rewrite E. lia.
  - apply Byte.of_N_None_iff in E. lia.
Qed.

(** ** The position mapper *)

Lemma skipCSIParams_ge fuel s j : j <= skipCSIParams fuel s j.
Proof.
  revert j; induction fuel as [|f IH]; intros j; simpl; [lia|].
  destruct (_ && _); [specialize (IH (j + 1))|]; lia.
Qed.

Lemma skipOSC_ge fuel s j : j <= skipOSC fuel s j.
Proof.
  revert j; induction fuel as [|f IH]; intros j; simpl; [lia|].
  destruct (j <? len s); [|lia].
  destruct (_ && _); [lia|].
  destruct (Byte.eqb _ BEL); [lia|]. specialize (IH (j + 1)); lia.
Qed.

Lemma stripStep_advances s st : st_i st < st_i (stripStep s st).
Proof.
  unfold stripStep.
  destruct (_ && _); simpl; [|lia].
  destruct (Byte.eqb _ LBRACKET).
  - pose proof (skipCSIParams_ge (length s) s (st_i st + 2)).
    simpl. destruct (_ <? len s); lia.
  - destruct (Byte.eqb _ RBRACKET); simpl; [|lia].
    pose proof (skipOSC_ge (length s) s (st_i st + 2)). lia.
Qed.

(** The fuel given to the scanner is enough: it stops because [i] has
    reached the end of the line. *)
Lemma stripLoop_exits fuel s st :
  len s - st_i st <= Z.of_nat fuel -> len s <= st_i (stripLoop fuel s st).
Proof.
  revert st; induction fuel as [|f IH]; intros st H; simpl.
  - lia.
  - destruct (st_i st <? len s) eqn:E; [|lia].
    apply IH. pose proof (stripStep_advances s st). lia.
Qed.

Lemma stripStep_lengths s st :
  length (st_posMap st) = length (st_plain st) ->
  length (st_posMap (stripStep s st)) = length (st_plain (stripStep s st)).
Proof.
  intros H. unfold stripStep.
  repeat match goal with
         | |- context [if ?c then _ else _] => destruct c
         end; simpl; rewrite ?length_app; simpl; lia.
Qed.

Lemma stripLoop_lengths fuel s st :
  length (st_posMap st) = length (st_plain st) ->
  length (st_posMap (stripLoop fuel s st))
  = length (st_plain (stripLoop fuel s st)).
Proof.
  revert st; induction fuel as [|f IH]; intros st H; simpl; [exact H|].
  destruct (_ <? _); [|exact H]. now apply IH, stripStep_lengths.
Qed.

(** Every plain byte is a byte of the line. *)
Lemma stripStep_plain_in s st (P : byte -> Prop) :
  Forall P s -> 0 <= st_i st < len s ->
  Forall P (st_plain st) -> Forall P (st_plain (stripStep s st)).
Proof.
  intros Hs Hi H.
  assert (Hat : P (at_ s (st_i st))).
  { rewrite Forall_forall in Hs. apply Hs. unfold at_, len in *.
    apply nth_In. lia. }
  unfold stripStep.
  repeat match goal with
         | |- context [if ?c then _ else _] => destruct c
         end; simpl; auto; apply Forall_app; auto.
Qed.

Lemma stripLoop_plain_in fuel s st (P : byte -> Prop) :
  Forall P s -> 0 <= st_i st ->
  Forall P (st_plain st) -> Forall P (st_plain (stripLoop fuel s st)).
Proof.
  revert st; induction fuel as [|f IH]; intros st Hs Hi H; simpl; auto.
  destruct (st_i st <? len s) eqn:E; auto.
  apply IH; auto.
  - pose proof (stripStep_advances s st). lia.
  - apply stripStep_plain_in; auto. lia.
Qed.

Lemma DecodeRune_ascii b s :
  isASCII b = true -> GoLib.DecodeRune (b :: s) = (code b, 1).
Proof. unfold isASCII, GoLib.DecodeRune. intros ->. reflexivity. Qed.

Lemma RuneCountFrom_ascii fuel s :
  Forall (fun b => isASCII b = true) s -> (length s <= fuel)%nat ->
  GoLib.RuneCountFrom fuel s = len s.
Proof.
  revert s; induction fuel as [|f IH]; intros s Hs Hf.
  - destruct s; simpl in *; [reflexivity|lia].
  - destruct s as [|b t]; [reflexivity|].
    inversion Hs; subst. cbn [GoLib.RuneCountFrom].
    rewrite DecodeRune_ascii by assumption.
    cbn [snd]. change (sliceFrom (b :: t) 1) with t.
    rewrite IH; auto; [rewrite len_cons; lia | simpl in Hf; lia].
Qed.

Lemma RuneCount_ascii s :
  Forall (fun b => isASCII b = true) s -> GoLib.RuneCount s = len s.
Proof. intros H. apply RuneCountFrom_ascii; auto. Qed.

(** C1 (as amended).  The position map has one entry per BYTE of the plain
    text, for every line; the two lengths agree with the codepoint count of
    the plain text when the line is ASCII. *)
Theorem stripANSIWithMapping_map_length (s : bytes) :
  Z.of_nat (length (snd (stripANSIWithMapping s)))
  = len (fst (stripANSIWithMapping s))
  /\ (Forall (fun b => isASCII b = true) s ->
      Z.of_nat (length (snd (stripANSIWithMapping s)))
      = GoLib.RuneCount (fst (stripANSIWithMapping s))).
Proof.
  assert (L : Z.of_nat (length (snd (stripANSIWithMapping s)))
              = len (fst (stripANSIWithMapping s))).
  { unfold stripANSIWithMapping, len; cbn [fst snd].
    f_equal. now apply stripLoop_lengths. }
  split; [exact L|].
  intros Hs. rewrite L. symmetry. apply RuneCount_ascii.
  unfold stripANSIWithMapping; cbn [fst].
  apply stripLoop_plain_in; simpl; auto; lia.
Qed.

Lemma stripANSIWithMapping_map_length_witness :
  Forall (fun b => isASCII b = true) styledLine
  /\ Z.of_nat (length (snd (stripANSIWithMapping styledLine)))
     = GoLib.RuneCount (fst (stripANSIWithMapping styledLine)).
Proof.
  assert (H : Forall (fun b => isASCII b = true) styledLine).
  { repeat constructor. }
  split; [exact H|].
  exact (proj2 (stripANSIWithMapping_map_length styledLine) H).
Defined.

(** C1 as stated fails on a line holding one two-byte codepoint: two map
    entries, one codepoint of plain text. *)
Lemma map_length_codepoints_counterexample :
  stripANSIWithMapping eAcute = (eAcute, [0; 1])
  /\ GoLib.RuneCount (fst (stripANSIWithMapping eAcute)) = 1
  /\ Z.of_nat (length (snd (stripANSIWithMapping eAcute)))
     <> GoLib.RuneCount (fst (stripANSIWithMapping eAcute)).
Proof. split; [|split]; [reflexivity | reflexivity | discriminate]. Qed.

Lemma skipToLetter_ge fuel s i : i <= skipToLetter fuel s i.
Proof.
  revert i; induction fuel as [|f IH]; intros i; simpl; [lia|].
  destruct (_ && _); [specialize (IH (i + 1))|]; lia.
Qed.

Lemma letter_not_param b :
  isLetter b = true -> isDigit b || Byte.eqb b x3b = false.
Proof.
  intros H. destruct (Byte.eqb b x3b) eqn:E.
  - apply eqb_eq in E; subst; discriminate.
  - unfold isLetter, isUpper, isLower, isDigit in *. lia.
Qed.

(** Where the parameter bytes are digits and semicolons, the mapper's scan
    of a CSI sequence stops at the same final letter as the clipper's. *)
Lemma skipCSIParams_agrees fuel s j :
  (forall k, j <= k < skipToLetter fuel s j ->
             isDigit (at_ s k) || Byte.eqb (at_ s k) x3b = true) ->
  skipCSIParams fuel s j = skipToLetter fuel s j.
Proof.
  revert j; induction fuel as [|f IH]; intros j H; simpl in *; [reflexivity|].
  destruct (j <? len s) eqn:Ej; simpl in *; [|reflexivity].
  destruct (isLetter (at_ s j)) eqn:El; simpl in *.
  - now rewrite letter_not_param.
  - pose proof (skipToLetter_ge f s (j + 1)).
    rewrite (H j) by lia. apply IH. intros k Hk. apply H. lia.
Qed.

(** C2 (the code departs from the claim).  On ESC "[4:3mX" the mapper takes
    the colon for the final byte of the sequence and maps "3mX" as visible
    text, although the first letter after ESC "[" is the "m" at offset 5; the
    clipper's scanner consumes the same sequence through that "m". *)
Theorem stripANSIWithMapping_csi_stops_before_letter :
  stripANSIWithMapping curlyUnderlined = (B "3mX", [4; 5; 6])
  /\ skipToLetter (length curlyUnderlined) curlyUnderlined 2 = 5
  /\ isLetter (at_ curlyUnderlined 5) = true
  /\ truncateVisibleChars curlyUnderlined 1 = curlyUnderlined
  /\ visibleCount curlyUnderlined = 1.
Proof. repeat split. Qed.

(** ** The search state *)

Lemma index_Some_iff {A} (l : list A) i :
  0 <= i < Z.of_nat (length l) <-> exists a, index l i = Some a.
Proof.
  unfold index. split.
  - intros H. replace ((0 <=? i) && (i <? Z.of_nat (length l))) with true
      by (symmetry; apply andb_true_iff; lia).
    destruct (nth_error l (Z.to_nat i)) eqn:E; [eauto|].
    apply nth_error_None in E. lia.
  - intros [a H]. destruct (_ && _) eqn:E; [|discriminate].
    apply andb_true_iff in E. lia.
Qed.

Lemma index_None_iff {A} (l : list A) i :
  index l i = None <-> ~ (0 <= i < Z.of_nat (length l)).
Proof.
  split.
  - intros H Hr. apply index_Some_iff in Hr. destruct Hr as [a Ha].
    congruence.
  - intros H. destruct (index l i) eqn:E; [|reflexivity].
    exfalso; apply H, index_Some_iff; eauto.
Qed.

Lemma index_Some_range {A} (l : list A) i a :
  index l i = Some a -> 0 <= i < Z.of_nat (length l).
Proof. intros H. apply index_Some_iff. eauto. Qed.

Lemma SetTerm_cursor ToLower s t content s' :
  SetTerm ToLower s t content = Some s' ->
  (0 < Z.of_nat (length (matches s')) /\ currentIndex s' = 0)
  \/ (matches s' = [] /\ currentIndex s' = currentIndex s).
Proof.
  unfold SetTerm.
  destruct (findAllMatches ToLower (setTerm s t) content) as [s1|] eqn:E;
    [|discriminate].
  assert (Hc : currentIndex s1 = currentIndex s).
  { unfold findAllMatches in E.
    destruct (isEmpty _); [inversion E; reflexivity|].
    destruct (findInLines _ _ _ _ _ _); inversion E; reflexivity. }
  destruct (0 <? _) eqn:E0; intros H; injection H as <-; simpl.
  - left. split; [lia|reflexivity].
  - right. split; [|exact Hc]. destruct (matches s1); [reflexivity|].
    exfalso. apply Z.ltb_ge in E0. cbn [length] in E0. lia.
Qed.

Lemma NextMatch_cursor s s' r :
  cursorOK s -> NextMatch s = Some (s', r) -> cursorOK s'.
Proof.
  intros [H1 H2]. unfold NextMatch.
  destruct (_ =? 0) eqn:E0.
  - intros H; inversion H; subst. split; auto.
  - destruct (index _ _) eqn:Ei; [|discriminate].
    intros H; inversion H; subst. clear H.
    apply index_Some_range in Ei. unfold cursorOK.
    unfold setCurrentIndex in *; simpl in *; lia.
Qed.

Lemma PrevMatch_cursor s s' r :
  cursorOK s -> PrevMatch s = Some (s', r) -> cursorOK s'.
Proof.
  intros [H1 H2]. unfold PrevMatch.
  destruct (_ =? 0) eqn:E0.
  - intros H; inversion H; subst. split; auto.
  - match goal with |- context [index ?l ?i] => destruct (index l i) eqn:Ei end;
      [|discriminate].
    intros H; inversion H; subst. clear H.
    apply index_Some_range in Ei. unfold cursorOK.
    destruct (_ <? 0) eqn:En; unfold setCurrentIndex in *; simpl in *; lia.
Qed.

Lemma reachable_cursorOK ToLower s : reachable ToLower s -> cursorOK s.
Proof.
  induction 1 as [cfg | s _ IH | s t c s' _ IH E | s s' r _ IH E
                 | s s' r _ IH E | s _ IH].
  - split; simpl; lia.
  - split; simpl; lia.
  - destruct IH. apply SetTerm_cursor in E.
    destruct E as [[E1 E2] | [E1 E2]]; split; rewrite ?E1, ?E2; simpl; lia.
  - eapply NextMatch_cursor; eauto.
  - eapply PrevMatch_cursor; eauto.
  - exact IH.
Qed.

Lemma setCurrentIndex_twice s a b :
  setCurrentIndex (setCurrentIndex s a) b = setCurrentIndex s b.
Proof. reflexivity. Qed.

(** C5.  In every state the program can reach: on an empty match list
    [NextMatch] and [PrevMatch] report "no match" and leave the state as it
    is; on a non-empty list neither faults, [NextMatch] moves the cursor one
    match forward and from the last match to the first, [PrevMatch] one match
    back and from the first match to the last, and each returns the match at
    the new cursor.  [GetCurrentMatch] returns the match at the cursor, or
    "none" when the cursor is out of range. *)
Theorem NextMatch_PrevMatch_cyclic ToLower (s : SearchState) :
  reachable ToLower s ->
  let n := Z.of_nat (length (matches s)) in
  let next := if currentIndex s =? n - 1 then 0 else currentIndex s + 1 in
  let prev := if currentIndex s =? 0 then n - 1 else currentIndex s - 1 in
  (n = 0 ->
   NextMatch s = Some (s, (zeroMatch, false))
   /\ PrevMatch s = Some (s, (zeroMatch, false)))
  /\ (0 < n ->
      exists mn mp,
        index (matches s) next = Some mn
        /\ NextMatch s = Some (setCurrentIndex s next, (mn, true))
        /\ index (matches s) prev = Some mp
        /\ PrevMatch s = Some (setCurrentIndex s prev, (mp, true)))
  /\ GetCurrentMatch s
     = match index (matches s) (currentIndex s) with
       | Some m => Some (m, true)
       | None => Some (zeroMatch, false)
       end.
Proof.
  intros Hr n next prev. apply reachable_cursorOK in Hr.
  destruct Hr as [H1 H2]. fold n in H2.
  split; [|split].
  - intros Hn. unfold NextMatch, PrevMatch. fold n. rewrite Hn. auto.
  - intros Hn. specialize (H2 Hn).
    assert (Hnext : 0 <= next < n).
    { subst next. destruct (Z.eqb_spec (currentIndex s) (n - 1)); lia. }
    assert (Hprev : 0 <= prev < n).
    { subst prev. destruct (Z.eqb_spec (currentIndex s) 0); lia. }
    destruct (proj1 (index_Some_iff (matches s) next) Hnext) as [mn Hmn].
    destruct (proj1 (index_Some_iff (matches s) prev) Hprev) as [mp Hmp].
    exists mn, mp. repeat split; auto.
    + unfold NextMatch. fold n.
      replace (n =? 0) with false by (symmetry; apply Z.eqb_neq; lia).
      assert (E : Z.rem (currentIndex s + 1) n = next).
      { subst next. destruct (currentIndex s =? n - 1) eqn:E.
        - apply Z.eqb_eq in E. replace (currentIndex s + 1) with n by lia.
          apply Z.rem_same. lia.
        - apply Z.eqb_neq in E. apply Z.rem_small. lia. }
      rewrite E. change (matches (setCurrentIndex s next)) with (matches s).
      change (currentIndex (setCurrentIndex s next)) with next.
      now rewrite Hmn.
    + unfold PrevMatch. fold n.
      replace (n =? 0) with false by (symmetry; apply Z.eqb_neq; lia).
      change (currentIndex (setCurrentIndex s (currentIndex s - 1)))
        with (currentIndex s - 1).
      change (matches (setCurrentIndex s (currentIndex s - 1)))
        with (matches s). fold n.
      assert (E : (if currentIndex s - 1 <? 0
                   then setCurrentIndex (setCurrentIndex s (currentIndex s - 1))
                                        (n - 1)
                   else setCurrentIndex s (currentIndex s - 1))
                  = setCurrentIndex s prev).
      { subst prev. destruct (currentIndex s =? 0) eqn:E.
        - apply Z.eqb_eq in E. rewrite E. reflexivity.
        - apply Z.eqb_neq in E.
          replace (currentIndex s - 1 <? 0) with false
            by (symmetry; apply Z.ltb_ge; lia).
          reflexivity. }
      rewrite E. change (matches (setCurrentIndex s prev)) with (matches s).
      change (currentIndex (setCurrentIndex s prev)) with prev.
      now rewrite Hmp.
  - unfold GetCurrentMatch. fold n.
    destruct ((currentIndex s <? 0) || (n <=? currentIndex s)) eqn:E.
    + replace (index (matches s) (currentIndex s)) with (@None SearchMatch);
        [reflexivity|].
      symmetry. apply index_None_iff. fold n.
      apply orb_true_iff in E. lia.
    + destruct (index (matches s) (currentIndex s)) eqn:Ei; [reflexivity|].
      apply index_None_iff in Ei. fold n in Ei.
      apply orb_false_iff in E. lia.
Qed.

Lemma NextMatch_PrevMatch_cyclic_witness :
  reachable GoLib.asciiToLower (stateOf afterFoo)
  /\ NextMatch (stateOf afterFoo)
     = Some (setCurrentIndex (stateOf afterFoo) 1,
             (mkMatch 0 8 8 (B "foo"), true))
  /\ PrevMatch (stateOf afterFoo)
     = Some (setCurrentIndex (stateOf afterFoo) 1,
             (mkMatch 0 8 8 (B "foo"), true)).
Proof.
  assert (R : reachable GoLib.asciiToLower (stateOf afterFoo)).
  { apply (@reach_SetTerm GoLib.asciiToLower (NewSearchState None) (B "foo")
             fooContent (stateOf afterFoo)); [apply reach_new | reflexivity]. }
  split; [exact R|].
  destruct (NextMatch_PrevMatch_cyclic R) as [_ [H _]].
  destruct (H eq_refl) as [mn [mp [H1 [H2 [H3 H4]]]]].
  vm_compute in H1, H3. injection H1 as <-. injection H3 as <-.
  split; [rewrite H2 | rewrite H4]; reflexivity.
Defined.

(** A search that finds nothing leaves the cursor where it was. *)
Lemma SetTerm_no_match_cursor_unchanged ToLower s t content s' :
  SetTerm ToLower s t content = Some s' ->
  matches s' = [] -> currentIndex s' = currentIndex s.
Proof.
  intros H Hm. apply SetTerm_cursor in H.
  destruct H as [[H _] | [_ H]]; [|exact H].
  rewrite Hm in H. simpl in H. lia.
Qed.

(** C8 (the code departs from the claim).  [NewSearchState] and [Clear] leave
    an empty match list with the cursor at [-1]; [SetTerm] does not: after a
    search for "foo" that found two matches, a search for "zzz" empties the
    match list and leaves the cursor at [0]. *)
Theorem SetTerm_no_match_stale_cursor :
  (forall cfg, matches (NewSearchState cfg) = []
               /\ currentIndex (NewSearchState cfg) = -1)
  /\ (forall s, matches (Clear s) = [] /\ currentIndex (Clear s) = -1)
  /\ option_map (fun s => length (matches s)) afterFoo = Some 2%nat
  /\ option_map matches afterFooThenZzz = Some []
  /\ option_map currentIndex afterFooThenZzz = Some 0.
Proof. repeat split. Qed.

(** The match list [SetTerm] stores is computed from the term, the content
    and the case-sensitivity flag alone. *)
Lemma SetTerm_matches_fresh ToLower s t content :
  option_map matches (SetTerm ToLower s t content)
  = option_map matches
      (freshSearch ToLower (caseSensitive s) (config s) t content).
Proof.
  unfold freshSearch, SetTerm, findAllMatches. simpl.
  destruct (isEmpty t); [reflexivity|].
  destruct (findInLines _ _ _ _ _ _); [|reflexivity].
  simpl. destruct (0 <? _); reflexivity.
Qed.

(** C9 (as amended).  [ToggleCaseSensitive] flips the flag and leaves the
    stored match list and the cursor as they are; the next [SetTerm]
    recomputes the whole list from the content under the new flag, whatever
    the list held before. *)
Theorem ToggleCaseSensitive_then_SetTerm_recomputes ToLower
    (s : SearchState) :
  caseSensitive (ToggleCaseSensitive s) = negb (caseSensitive s)
  /\ matches (ToggleCaseSensitive s) = matches s
  /\ currentIndex (ToggleCaseSensitive s) = currentIndex s
  /\ forall t content,
       option_map matches (SetTerm ToLower (ToggleCaseSensitive s) t content)
       = option_map matches
           (freshSearch ToLower (negb (caseSensitive s)) (config s) t content).
Proof.
  repeat split. intros t content.
  exact (SetTerm_matches_fresh ToLower (ToggleCaseSensitive s) t content).
Qed.

(** C9 as stated fails: after "Foo" has been searched case-insensitively in
    "foo FOO Foo", the toggle leaves the three matches in place, and a fresh
    case-sensitive search finds one. *)
Lemma ToggleCaseSensitive_recompute_counterexample :
  length (matches (ToggleCaseSensitive (stateOf afterMixed))) = 3%nat
  /\ option_map (fun s => length (matches s))
       (freshSearch GoLib.asciiToLower
          (caseSensitive (ToggleCaseSensitive (stateOf afterMixed))) None
          (term (stateOf afterMixed)) mixedCaseContent) = Some 1%nat
  /\ Some (matches (ToggleCaseSensitive (stateOf afterMixed)))
     <> option_map matches
          (freshSearch GoLib.asciiToLower
             (caseSensitive (ToggleCaseSensitive (stateOf afterMixed))) None
             (term (stateOf afterMixed)) mixedCaseContent).
Proof.
  split; [|split]; [vm_compute; reflexivity | vm_compute; reflexivity |].
  vm_compute. discriminate.
Qed.

(** ** [strings.Index] *)

Lemma HasPrefix_len s p : GoLib.HasPrefix s p = true -> len p <= len s.
Proof.
  revert s; induction p as [|c p IH]; intros s H.
  - pose proof (len_nonneg s). unfold len in *; simpl; lia.
  - destruct s as [|d s]; [discriminate|]. simpl in H.
    apply andb_true_iff in H. destruct H as [_ H]. apply IH in H.
    rewrite !len_cons. lia.
Qed.

Lemma Index_nil sub :
  GoLib.Index [] sub = if GoLib.HasPrefix [] sub then 0 else -1.
Proof. reflexivity. Qed.

Lemma Index_cons c s sub :
  GoLib.Index (c :: s) sub
  = if GoLib.HasPrefix (c :: s) sub then 0
    else if GoLib.Index s sub =? -1 then -1 else GoLib.Index s sub + 1.
Proof. reflexivity. Qed.

Lemma Index_range s sub : GoLib.Index s sub = -1 \/ 0 <= GoLib.Index s sub.
Proof.
  induction s as [|c s IH]; [rewrite Index_nil | rewrite Index_cons].
  - destruct (GoLib.HasPrefix [] sub); lia.
  - destruct (GoLib.HasPrefix (c :: s) sub); [lia|].
    destruct (Z.eqb_spec (GoLib.Index s sub) (-1)); lia.
Qed.

(** An occurrence found by [strings.Index] lies inside the string. *)
Lemma Index_bound s sub :
  0 <= GoLib.Index s sub -> GoLib.Index s sub + len sub <= len s.
Proof.
  induction s as [|c s IH]; [rewrite Index_nil | rewrite Index_cons].
  - destruct (GoLib.HasPrefix [] sub) eqn:E; [|lia].
    apply HasPrefix_len in E. lia.
  - destruct (GoLib.HasPrefix (c :: s) sub) eqn:E.
    + apply HasPrefix_len in E. lia.
    + destruct (Z.eqb_spec (GoLib.Index s sub) (-1)); [lia|].
      rewrite len_cons. pose proof (Index_range s sub). lia.
Qed.

(** ... and is an occurrence. *)
Lemma Index_found s sub :
  0 <= GoLib.Index s sub ->
  GoLib.HasPrefix (sliceFrom s (GoLib.Index s sub)) sub = true.
Proof.
  induction s as [|c s IH]; [rewrite Index_nil | rewrite Index_cons].
  - destruct (GoLib.HasPrefix [] sub) eqn:E; [auto|lia].
  - destruct (GoLib.HasPrefix (c :: s) sub) eqn:E; [auto|].
    destruct (Z.eqb_spec (GoLib.Index s sub) (-1)); [lia|].
    pose proof (Index_range s sub) as Hr. intros _.
    unfold sliceFrom in *.
    replace (Z.to_nat (GoLib.Index s sub + 1))
      with (S (Z.to_nat (GoLib.Index s sub))) by lia.
    cbn [skipn]. apply IH. lia.
Qed.

Lemma len_sliceFrom s i : 0 <= i <= len s -> len (sliceFrom s i) = len s - i.
Proof. unfold len, sliceFrom. rewrite length_skipn. lia. Qed.

Lemma sliceFrom_0 s : sliceFrom s 0 = s.
Proof. reflexivity. Qed.
(** ** The match list *)

Section MatchOrder.

Variable ToLower : bytes -> bytes.
Variable lineOf : Z -> bytes.
Variable searchTerm : bytes.
Hypothesis searchTerm_nonempty : searchTerm <> [].

Lemma searchTerm_len : 0 < len searchTerm.
Proof.
  assert (H : length searchTerm <> 0%nat).
  { intros E. apply length_zero_iff_nil in E. contradiction. }
  unfold len. lia.
Qed.

(** The matches one line contributes: the loop leaves by its [break], never
    takes a slice out of range, and records the occurrences one after the
    other, each search starting where the previous match ended. *)
Lemma findInLine_records fuel lineNum plainLine posMap idx acc :
  0 <= idx <= len (lineOf lineNum) ->
  len (lineOf lineNum) - idx < Z.of_nat fuel ->
  exists new,
    findInLine fuel lineNum plainLine (lineOf lineNum) searchTerm posMap
               idx acc = Some (acc ++ new)
    /\ Forall (fun m => lineNumber m = lineNum) new
    /\ Sorted (nextRecorded lineOf searchTerm) new
    /\ (forall m, hd_error new = Some m ->
          0 <= GoLib.Index (sliceFrom (lineOf lineNum) idx) searchTerm
          /\ column m
             = idx + GoLib.Index (sliceFrom (lineOf lineNum) idx) searchTerm).
Proof.
  pose proof searchTerm_len as Hst.
  revert idx acc; induction fuel as [|f IH]; intros idx acc Hidx Hf; [lia|].
  cbn [findInLine].
  replace ((idx <? 0) || (len (lineOf lineNum) <? idx)) with false by lia.
  pose proof (Index_range (sliceFrom (lineOf lineNum) idx) searchTerm) as Hr.
  pose proof (Index_bound (sliceFrom (lineOf lineNum) idx) searchTerm) as Hb.
  rewrite len_sliceFrom in Hb by lia.
  remember (GoLib.Index (sliceFrom (lineOf lineNum) idx) searchTerm) as pos
    eqn:Epos.
  destruct (Z.eqb_spec pos (-1)) as [E|E].
  - exists []. rewrite app_nil_r. split; [reflexivity|].
    split; [constructor|]. split; [constructor|].
    intros m Hm; discriminate Hm.
  - assert (Hpos : 0 <= pos) by lia. specialize (Hb Hpos).
    match goal with
    | |- context [findInLine f _ _ _ _ _ ?i (acc ++ [?m])] =>
      destruct (IH i (acc ++ [m])) as [new [E1 [E2 [E3 E4]]]]; [lia | lia |];
      exists (m :: new)
    end.
    rewrite E1, <- app_assoc. split; [reflexivity|].
    split; [constructor; [reflexivity | exact E2]|].
    split.
    + constructor; [exact E3|].
      destruct new as [|m' new']; constructor.
      destruct (E4 m' eq_refl) as [E5 E6].
      pose proof (Forall_inv E2) as E7. cbn beta in E7.
      unfold nextRecorded, matchBefore, resumesAfter.
      cbn [lineNumber column]. rewrite E7.
      split; [right; split; [reflexivity|lia]|].
      intros _. split; assumption.
    + intros m Hm. injection Hm as <-. cbn [column].
      split; [assumption|reflexivity].
Qed.

Lemma Sorted_app {A} (R : A -> A -> Prop) (a b : list A) :
  Sorted R a -> Sorted R b ->
  (forall x y, In x a -> In y b -> R x y) -> Sorted R (a ++ b).
Proof.
  induction a as [|x a IH]; intros Ha Hb H; simpl; auto.
  inversion Ha; subst. constructor.
  - apply IH; auto. intros; apply H; simpl; auto.
  - destruct a as [|x' a']; simpl.
    + destruct b; constructor. apply H; simpl; auto.
    + constructor. inversion H3; auto.
Qed.

Lemma skipn_cons_nth {A} (l : list A) k x rest d :
  skipn k l = x :: rest -> nth k l d = x /\ skipn (S k) l = rest.
Proof.
  revert l; induction k as [|k IH]; intros l H.
  - simpl in H. subst. auto.
  - destruct l; [discriminate|]. simpl in H. apply IH in H. exact H.
Qed.

Variable cs : bool.
Variable content : bytes.
Hypothesis lineOf_def : forall k, lineOf k = searchLineOf ToLower cs content k.

(** The matches of the lines from [lineNum] on. *)
Lemma findInLines_records lines lineNum acc :
  0 <= lineNum ->
  lines = skipn (Z.to_nat lineNum) (GoLib.SplitLines content) ->
  exists new,
    findInLines ToLower cs searchTerm lines lineNum acc = Some (acc ++ new)
    /\ Forall (fun m => lineNum <= lineNumber m) new
    /\ Sorted (nextRecorded lineOf searchTerm) new.
Proof.
  revert lineNum acc; induction lines as [|line rest IH];
    intros lineNum acc Hk Hl.
  - exists []. simpl. rewrite app_nil_r. auto.
  - symmetry in Hl. apply (@skipn_cons_nth bytes _ _ _ _ ([] : bytes)) in Hl. destruct Hl as [Hn Hr].
    cbn [findInLines].
    destruct (stripANSIWithMapping line) as [plainLine posMap] eqn:Es.
    assert (Hline : (if cs then plainLine else ToLower plainLine)
                    = lineOf lineNum).
    { rewrite lineOf_def. unfold searchLineOf.
      replace (nth (Z.to_nat lineNum) (GoLib.SplitLines content) []) with line.
      rewrite Es. reflexivity. }
    rewrite Hline.
    destruct (@findInLine_records (S (length (lineOf lineNum))) lineNum
                plainLine posMap 0 acc) as [a [A1 [A2 [A3 _]]]].
    { pose proof (len_nonneg (lineOf lineNum)). lia. }
    { unfold len. lia. }
    rewrite A1.
    destruct (IH (lineNum + 1) (acc ++ a)) as [b [B1 [B2 B3]]]; [lia | |].
    { rewrite <- Hr. f_equal. lia. }
    exists (a ++ b). rewrite B1, app_assoc. split; [reflexivity|].
    split.
    + apply Forall_app. split.
      * eapply Forall_impl; [|exact A2]. simpl. intros; lia.
      * eapply Forall_impl; [|exact B2]. simpl. intros; lia.
    + apply Sorted_app; auto. intros x y Hx Hy.
      rewrite Forall_forall in A2, B2. specialize (A2 x Hx).
      specialize (B2 y Hy). simpl in *.
      split; [left; lia | intros; lia].
Qed.

End MatchOrder.

Lemma Sorted_impl {A} (R R' : A -> A -> Prop) (l : list A) :
  (forall x y, R x y -> R' x y) -> Sorted R l -> Sorted R' l.
Proof.
  intros H. induction 1 as [|x l Hs IH Hh]; constructor; auto.
  destruct Hh; constructor; auto.
Qed.

Lemma Sorted_adjacent {A} (R : A -> A -> Prop) (l pre post : list A) x y :
  Sorted R l -> l = pre ++ x :: y :: post -> R x y.
Proof.
  revert l; induction pre as [|p pre IH]; intros l Hs ->; simpl in Hs.
  - inversion Hs as [|? ? _ Hh]; subst. now inversion Hh.
  - inversion Hs; subst. eapply IH; eauto.
Qed.

Lemma matchBefore_trans m1 m2 m3 :
  matchBefore m1 m2 -> matchBefore m2 m3 -> matchBefore m1 m3.
Proof. unfold matchBefore. lia. Qed.

Lemma asciiToLower_nonempty t : t <> [] -> GoLib.asciiToLower t <> [].
Proof. destruct t; [contradiction | discriminate]. Qed.

(** ** The hyperlink injector *)

Lemma findRParen_range fuel s j q :
  findRParen fuel s j = Some q ->
  j <= q < len s /\ at_ s q = RPAREN.
Proof.
  revert j; induction fuel as [|f IH]; intros j; simpl; [discriminate|].
  destruct (Z.ltb_spec j (len s)) as [Hj|Hj]; [|discriminate].
  destruct (Byte.eqb (at_ s j) RPAREN) eqn:E.
  - intros Hq; injection Hq as <-. apply eqb_eq in E. split; [lia|exact E].
  - intros Hq. apply IH in Hq. split; [lia|tauto].
Qed.

(** The submatch indices of an occurrence are offsets into the text. *)
Lemma matchCloseBracketAt_range s p m :
  0 <= p -> matchCloseBracketAt s p = Some m ->
  cb_start m = p /\ cb_urlStart m = p + 2
  /\ p + 2 < cb_urlEnd m < len s /\ cb_end m = cb_urlEnd m + 1.
Proof.
  intros Hp. unfold matchCloseBracketAt.
  destruct (_ && _); [|discriminate].
  destruct (findRParen _ _ _) as [q|] eqn:E; [|discriminate].
  apply findRParen_range in E.
  destruct (Z.ltb_spec (p + 2) q) as [Hq|Hq]; [|discriminate].
  intros Hm; injection Hm as <-. simpl. lia.
Qed.

Lemma findAllCloseBracket_In fuel s p m :
  0 <= p -> In m (findAllCloseBracket fuel s p) ->
  exists p', p <= p' /\ matchCloseBracketAt s p' = Some m.
Proof.
  revert p; induction fuel as [|f IH]; intros p Hp; simpl; [tauto|].
  destruct (p <? len s); [|simpl; tauto].
  destruct (matchCloseBracketAt s p) as [m0|] eqn:E.
  - intros [<- | H]; [exists p; split; [lia|auto]|].
    pose proof (matchCloseBracketAt_range _ Hp E).
    apply IH in H; [|lia]. destruct H as [p' [H1 H2]]. exists p'. split; [lia|auto].
  - intros H. apply IH in H; [|lia]. destruct H as [p' [H1 H2]].
    exists p'. split; [lia|auto].
Qed.

Lemma findOpenBracket_range fuel result pos :
  findOpenBracket fuel result pos = -1
  \/ 0 <= findOpenBracket fuel result pos <= pos.
Proof.
  revert pos; induction fuel as [|f IH]; intros pos; simpl; [auto|].
  destruct (Z.leb_spec 0 pos) as [Hp|Hp]; [|auto].
  specialize (IH (pos - 1)).
  destruct (Byte.eqb _ LBRACKET); [destruct (_ && _)|]; lia.
Qed.

Lemma collectValid_In result ms l :
  In l (collectValid result ms) ->
  exists m, In m ms
    /\ matchStart l = openBracketFor result (cb_start m)
    /\ 0 <= matchStart l < cb_start m
    /\ matchEnd l = cb_end m /\ textStart l = matchStart l + 1
    /\ textEnd l = cb_start m
    /\ urlStart l = cb_urlStart m /\ urlEnd l = cb_urlEnd m.
Proof.
  induction ms as [|m ms IH]; simpl; [tauto|].
  destruct (Z.leb_spec 0 (openBracketFor result (cb_start m))) as [H0|H0].
  - intros [<- | H].
    + exists m. simpl. repeat split; auto.
      unfold openBracketFor in *.
      destruct (findOpenBracket_range (S (length result)) result
                  (cb_start m - 1)); lia.
    + destruct (IH H) as [m' Hm']. exists m'. tauto.
  - intros H. destruct (IH H) as [m' Hm']. exists m'. tauto.
Qed.

Lemma sliceChecked_Some s lo hi :
  0 <= lo <= hi -> hi <= len s -> sliceChecked s lo hi = Some (slice s lo hi).
Proof.
  intros H1 H2. unfold sliceChecked.
  replace ((0 <=? lo) && (lo <=? hi) && (hi <=? len s)) with true by lia.
  reflexivity.
Qed.

(** A step whose recovered URL fails the shape check is the [continue] of
    the source: the text stays as it is. *)
Lemma processMatch_notURL hexToANSI cfg hoveredURL result m :
  0 <= textStart m <= textEnd m -> textEnd m <= len result ->
  0 <= urlStart m <= urlEnd m -> urlEnd m <= len result ->
  notURL (recoverURL (slice result (urlStart m) (urlEnd m))) = true ->
  processMatch hexToANSI cfg hoveredURL result m = Some result.
Proof.
  intros H1 H2 H3 H4 H. unfold processMatch.
  rewrite !sliceChecked_Some by assumption. now rewrite H.
Qed.

Lemma processAll_all_notURL hexToANSI cfg hoveredURL result ms :
  Forall (fun m =>
            (0 <= textStart m <= textEnd m /\ textEnd m <= len result
             /\ 0 <= urlStart m <= urlEnd m /\ urlEnd m <= len result)
            /\ notURL (recoverURL (slice result (urlStart m) (urlEnd m)))
               = true) ms ->
  processAll hexToANSI cfg hoveredURL result ms = Some result.
Proof.
  induction 1 as [|m ms [[H1 [H2 [H3 H4]]] H5] _ IH]; simpl; [reflexivity|].
  rewrite processMatch_notURL by assumption. exact IH.
Qed.

(** ** A link that opens at offset 0 *)

Lemma at_app_l (a b : bytes) i : 0 <= i < len a -> at_ (a ++ b) i = at_ a i.
Proof. intros H. unfold at_, len in *. apply app_nth1. lia. Qed.

Lemma at_app_r (a b : bytes) i :
  len a <= i -> at_ (a ++ b) i = at_ b (i - len a).
Proof.
  intros H. unfold at_, len in *. rewrite app_nth2 by lia.
  f_equal. pose proof (Nat2Z.is_nonneg (length a)). lia.
Qed.

Lemma at_cons_0 (x : byte) (a : bytes) : at_ (x :: a) 0 = x.
Proof. reflexivity. Qed.

Lemma at_cons_S (x : byte) (a : bytes) i :
  0 < i -> at_ (x :: a) i = at_ a (i - 1).
Proof.
  intros H. change (x :: a) with ([x] ++ a). rewrite at_app_r; [reflexivity|].
  unfold len; simpl; lia.
Qed.

Lemma at_In (a : bytes) i : 0 <= i < len a -> In (at_ a i) a.
Proof. intros H. unfold at_, len in *. apply nth_In. lia. Qed.

Lemma slice_app_mid (a b c : bytes) :
  slice (a ++ b ++ c) (len a) (len a + len b) = b.
Proof.
  unfold slice, len. rewrite Nat2Z.id.
  rewrite skipn_app, Nat.sub_diag, skipn_all. simpl.
  replace (Z.to_nat _) with (length b) by lia.
  rewrite firstn_app, Nat.sub_diag, firstn_all. simpl. apply app_nil_r.
Qed.

(** The backward scan accepts a bracket at offset 0 without looking at a
    byte before it. *)
Lemma findOpenBracket_offset_zero fuel result pos :
  at_ result 0 = LBRACKET -> 0 <= pos < Z.of_nat fuel ->
  0 <= findOpenBracket fuel result pos.
Proof.
  intros H0. revert pos; induction fuel as [|f IH]; intros pos Hp; [lia|].
  cbn [findOpenBracket]. replace (0 <=? pos) with true by lia.
  destruct (Z.eq_dec pos 0) as [->|Hne].
  - rewrite H0. unfold LBRACKET at 1. simpl. lia.
  - destruct (Byte.eqb _ LBRACKET); [destruct (_ && _)|]; try lia;
      apply IH; lia.
Qed.

Lemma findOpenBracket_reaches_zero fuel result pos :
  at_ result 0 = LBRACKET -> 0 <= pos < Z.of_nat fuel ->
  (forall k, 0 < k <= pos -> at_ result k = LBRACKET ->
             at_ result (k - 1) = ESC) ->
  findOpenBracket fuel result pos = 0.
Proof.
  intros H0. revert pos; induction fuel as [|f IH]; intros pos Hp H; [lia|].
  cbn [findOpenBracket]. replace (0 <=? pos) with true by lia.
  destruct (Z.eq_dec pos 0) as [->|Hne].
  - rewrite H0. reflexivity.
  - destruct (Byte.eqb (at_ result pos) LBRACKET) eqn:E.
    + apply eqb_eq in E. rewrite (H pos) by (auto; lia).
      replace (0 <? pos) with true by lia. simpl.
      apply IH; [lia|]. intros; apply H; auto; lia.
    + apply IH; [lia|]. intros; apply H; auto; lia.
Qed.

Lemma findRParen_first fuel s j q :
  0 <= j <= q -> q < len s -> q - j < Z.of_nat fuel ->
  (forall k, j <= k < q -> at_ s k <> RPAREN) -> at_ s q = RPAREN ->
  findRParen fuel s j = Some q.
Proof.
  revert j; induction fuel as [|f IH]; intros j Hj Hq Hf Hn Hat; [lia|].
  cbn [findRParen]. replace (j <? len s) with true by lia.
  destruct (Z.eq_dec j q) as [->|Hne].
  - rewrite Hat. reflexivity.
  - destruct (Byte.eqb (at_ s j) RPAREN) eqn:E.
    + apply eqb_eq in E. exfalso. apply (Hn j); [lia|assumption].
    + apply IH; try lia; auto. intros; apply Hn; lia.
Qed.

Lemma findAllCloseBracket_skip n fuel s p :
  0 <= p -> p + Z.of_nat n <= len s ->
  (forall k, p <= k < p + Z.of_nat n -> matchCloseBracketAt s k = None) ->
  findAllCloseBracket (n + fuel) s p
  = findAllCloseBracket fuel s (p + Z.of_nat n).
Proof.
  revert p; induction n as [|n IH]; intros p Hp Hl H.
  - simpl. f_equal. lia.
  - cbn [Nat.add findAllCloseBracket].
    replace (p <? len s) with true by lia.
    rewrite (H p) by lia. rewrite IH; [f_equal; lia | lia | lia |].
    intros; apply H; lia.
Qed.

Section LinkAtZero.

Variables text urlPart : bytes.

Let whole : bytes :=
  [LBRACKET] ++ text ++ [RBRACKET; LPAREN] ++ urlPart ++ [RPAREN].

Hypothesis text_no_close : ~ In RBRACKET text.
Hypothesis text_brackets_escaped :
  forall i, 0 <= i < len text -> at_ text i = LBRACKET ->
            0 < i /\ at_ text (i - 1) = ESC.
Hypothesis urlPart_nonempty : urlPart <> [].
Hypothesis urlPart_no_close : ~ In RPAREN urlPart.

Lemma whole_len : len whole = len text + len urlPart + 4.
Proof.
  unfold whole. rewrite !len_app.
  change (len [LBRACKET]) with 1. change (len [RBRACKET; LPAREN]) with 2.
  change (len [RPAREN]) with 1. lia.
Qed.

Lemma whole_at_text k : 0 < k <= len text -> at_ whole k = at_ text (k - 1).
Proof.
  intros H. unfold whole. cbn [app]. rewrite at_cons_S by lia.
  apply at_app_l. lia.
Qed.

Lemma whole_at_close : at_ whole (1 + len text) = RBRACKET.
Proof.
  unfold whole. cbn [app]. rewrite at_cons_S by (pose proof (len_nonneg text); lia).
  rewrite at_app_r by lia.
  replace (1 + len text - 1 - len text) with 0 by lia. reflexivity.
Qed.

Lemma whole_at_paren : at_ whole (2 + len text) = LPAREN.
Proof.
  unfold whole. cbn [app]. rewrite at_cons_S by (pose proof (len_nonneg text); lia).
  rewrite at_app_r by lia.
  replace (2 + len text - 1 - len text) with 1 by lia. reflexivity.
Qed.

Lemma whole_at_url k :
  3 + len text <= k < 3 + len text + len urlPart ->
  at_ whole k = at_ urlPart (k - 3 - len text).
Proof.
  intros H. pose proof (len_nonneg text). unfold whole. cbn [app].
  rewrite at_cons_S by lia. rewrite at_app_r by lia.
  rewrite at_cons_S by lia. rewrite at_cons_S by lia.
  rewrite at_app_l by lia. f_equal. lia.
Qed.

Lemma whole_at_end : at_ whole (3 + len text + len urlPart) = RPAREN.
Proof.
  pose proof (len_nonneg text). pose proof (len_nonneg urlPart).
  unfold whole. cbn [app].
  rewrite at_cons_S by lia. rewrite at_app_r by lia.
  rewrite at_cons_S by lia. rewrite at_cons_S by lia.
  rewrite at_app_r by lia.
  replace (_ - len urlPart) with 0 by lia. reflexivity.
Qed.

Lemma urlPart_len : 0 < len urlPart.
Proof.
  assert (H : length urlPart <> 0%nat).
  { intros E. apply length_zero_iff_nil in E. contradiction. }
  unfold len. lia.
Qed.

Lemma whole_closeBracketMatches :
  closeBracketMatches whole
  = [mkClose (1 + len text) (len whole) (3 + len text) (len whole - 1)].
Proof.
  pose proof (len_nonneg text) as Ht. pose proof urlPart_len as Hu.
  pose proof whole_len as Hw.
  unfold closeBracketMatches.
  replace (S (length whole))
    with (S (length text) + (length whole - length text))%nat
    by (unfold len in *; lia).
  rewrite findAllCloseBracket_skip; try (unfold len in *; lia).
  - replace (0 + Z.of_nat (S (length text))) with (1 + len text)
      by (unfold len; lia).
    destruct (length whole - length text)%nat as [|f] eqn:Ef;
      [unfold len in *; lia|].
    cbn [findAllCloseBracket].
    replace (1 + len text <? len whole) with true by lia.
    unfold matchCloseBracketAt.
    replace (1 + len text + 1 <? len whole) with true by lia.
    rewrite whole_at_close.
    replace (1 + len text + 1) with (2 + len text) by lia.
    rewrite whole_at_paren. cbn [andb Byte.eqb].
    change (Byte.eqb RBRACKET RBRACKET) with true.
    change (Byte.eqb LPAREN LPAREN) with true. cbn [andb].
    rewrite (@findRParen_first _ whole _ (3 + len text + len urlPart));
      try lia.
    + replace (1 + len text + 2 <? 3 + len text + len urlPart) with true by lia.
      replace (3 + len text + len urlPart + 1) with (len whole) by lia.
      replace (1 + len text + 2) with (3 + len text) by lia.
      replace (3 + len text + len urlPart) with (len whole - 1) by lia.
      cbn [cb_end]. destruct f; cbn [findAllCloseBracket];
        [reflexivity|].
      replace (len whole <? len whole) with false by lia. reflexivity.
    + unfold len in *. lia.
    + intros k Hk. rewrite whole_at_url by lia. intros E.
      apply urlPart_no_close. rewrite <- E. apply at_In. lia.
    + apply whole_at_end.
  - intros k Hk. unfold matchCloseBracketAt.
    destruct (Z.eq_dec k 0) as [->|Hne].
    + unfold whole. cbn [app]. rewrite at_cons_0.
      change (Byte.eqb LBRACKET RBRACKET) with false.
      now rewrite andb_false_r.
    + destruct (Byte.eqb (at_ whole k) RBRACKET) eqn:E.
      * apply eqb_eq in E. rewrite whole_at_text in E by (unfold len in *; lia).
        exfalso. apply text_no_close. rewrite <- E. apply at_In.
        unfold len in *; lia.
      * now rewrite andb_false_r.
Qed.

Lemma whole_openBracket : openBracketFor whole (1 + len text) = 0.
Proof.
  pose proof (len_nonneg text) as Ht. pose proof urlPart_len as Hu.
  pose proof whole_len as Hw.
  unfold openBracketFor. apply findOpenBracket_reaches_zero.
  - reflexivity.
  - unfold len in *. lia.
  - intros k Hk E. rewrite whole_at_text in E by lia.
    apply text_brackets_escaped in E; [|lia]. destruct E as [E1 E2].
    rewrite whole_at_text by lia. exact E2.
Qed.

Lemma whole_slices :
  slice whole 1 (1 + len text) = text
  /\ slice whole (3 + len text) (len whole - 1) = urlPart
  /\ slice whole 0 0 = []
  /\ slice whole (len whole) (len whole) = [].
Proof.
  pose proof whole_len as Hw. repeat split.
  - exact (slice_app_mid [LBRACKET] text _).
  - replace (len whole - 1) with (3 + len text + len urlPart) by lia.
    pose proof (slice_app_mid ([LBRACKET] ++ text ++ [RBRACKET; LPAREN])
                  urlPart [RPAREN]) as H.
    rewrite !len_app in H. change (len [LBRACKET]) with 1 in H.
    change (len [RBRACKET; LPAREN]) with 2 in H.
    replace (1 + (len text + 2)) with (3 + len text) in H by lia.
    etransitivity; [|exact H]. f_equal. unfold whole.
    rewrite <- !app_assoc. reflexivity.
  - unfold slice. replace (Z.to_nat (len whole - len whole)) with 0%nat by lia.
    reflexivity.
Qed.

Lemma addHyperlinks_whole hexToANSI cfg hoveredURL originalMarkdown :
  notURL (recoverURL urlPart) = false ->
  addHyperlinks hexToANSI whole originalMarkdown cfg hoveredURL
  = Some (hyperlinkFor hexToANSI cfg hoveredURL (recoverURL urlPart) text).
Proof.
  intros Hurl.
  pose proof (len_nonneg text) as Ht. pose proof urlPart_len as Hu.
  pose proof whole_len as Hw.
  destruct whole_slices as [S1 [S2 [S3 S4]]].
  unfold addHyperlinks. rewrite whole_closeBracketMatches.
  cbn [collectValid cb_start cb_end cb_urlStart cb_urlEnd].
  rewrite whole_openBracket. change (0 <=? 0) with true. cbv iota.
  change (0 + 1) with 1. cbn [rev app processAll].
  unfold processMatch.
  cbn [textStart textEnd urlStart urlEnd matchStart matchEnd].
  rewrite !sliceChecked_Some by lia.
  rewrite S1, S2, S3, S4, Hurl. cbn [app]. now rewrite app_nil_r.
Qed.

End LinkAtZero.

(** C10.  A "[" at offset 0 of the scanned text is taken as the opening
    bracket: the backward scan from any "](" never comes back empty-handed
    when the text starts with "[", and a text "[text](url)" whose text holds
    no "]" and no unescaped "[" and whose URL passes the shape check is
    rewritten, whole, into the hyperlink of that text and URL. *)
Theorem link_opening_at_offset_zero hexToANSI cfg hoveredURL :
  (forall result closeBracketPos,
      at_ result 0 = LBRACKET -> 0 < closeBracketPos <= len result ->
      0 <= openBracketFor result closeBracketPos)
  /\ (forall text urlPart originalMarkdown,
        ~ In RBRACKET text ->
        (forall i, 0 <= i < len text -> at_ text i = LBRACKET ->
                   0 < i /\ at_ text (i - 1) = ESC) ->
        urlPart <> [] -> ~ In RPAREN urlPart ->
        notURL (recoverURL urlPart) = false ->
        openBracketFor
          ([LBRACKET] ++ text ++ [RBRACKET; LPAREN] ++ urlPart ++ [RPAREN])
          (1 + len text) = 0
        /\ addHyperlinks hexToANSI
             ([LBRACKET] ++ text ++ [RBRACKET; LPAREN] ++ urlPart ++ [RPAREN])
             originalMarkdown cfg hoveredURL
           = Some (hyperlinkFor hexToANSI cfg hoveredURL
                     (recoverURL urlPart) text)).
Proof.
  split.
  - intros result c H0 Hc. unfold openBracketFor.
    apply findOpenBracket_offset_zero; [assumption|]. unfold len in *. lia.
  - intros text urlPart md H1 H2 H3 H4 H5. split.
    + now apply whole_openBracket.
    + now apply addHyperlinks_whole.
Qed.

Lemma link_opening_at_offset_zero_witness :
  at_ linkAtZero 0 = LBRACKET
  /\ 0 <= openBracketFor linkAtZero 5
  /\ addHyperlinks hexToANSI_214 linkAtZero [] None []
     = Some (plainUnderline (B "https://a.b") (B "home")).
Proof.
  split; [reflexivity|]. split.
  - apply (proj1 (link_opening_at_offset_zero hexToANSI_214 None []));
      [reflexivity | vm_compute; split; [reflexivity | discriminate]].
  - refine (proj2 (proj2 (link_opening_at_offset_zero hexToANSI_214 None [])
              (B "home") (B "https://a.b") [] _ _ _ _ _)).
    + intros H; repeat (destruct H as [H | H]; [discriminate H|]); exact H.
    + intros i Hi E. exfalso.
      assert (Hc : i = 0 \/ i = 1 \/ i = 2 \/ i = 3)
        by (change (len (B "home")) with 4 in Hi; lia).
      destruct Hc as [-> | [-> | [-> | ->]]]; discriminate E.
    + discriminate.
    + intros H; repeat (destruct H as [H | H]; [discriminate H|]); exact H.
    + reflexivity.
Defined.

(** ** The link hit-table builder *)

(** C7 (the code departs from the claim).  On a line that starts with a
    bullet (three bytes, one codepoint) and whose link text holds U+00E9 (two
    bytes, one codepoint), the recorded [x] is 4 and the recorded [width] is
    5, the byte counts; the codepoint counts of the stripped text before the
    link and of the stripped link text are 2 and 4. *)
Theorem extractLinkPositions_counts_bytes :
  extractLinkPositions bulletLinkLine
  = [mkLinkPos (B "http://a.b") (B "caf" ++ eAcute) 4 0 5]
  /\ map (fun m => GoLib.RuneCount
                     (stripAllEscapeSequences
                        (slice bulletLinkLine 0 (hm_textStart m))))
         (findAllHyperlinks (S (length bulletLinkLine)) bulletLinkLine 0)
     = [2]
  /\ map (fun l => GoLib.RuneCount (lp_text l))
         (extractLinkPositions bulletLinkLine) = [4].
Proof. split; [evaluate|]. split; evaluate. Qed.

(** ** The viewport clipper *)

Lemma skipToLetter_le fuel s i : i <= len s -> skipToLetter fuel s i <= len s.
Proof.
  revert i; induction fuel as [|f IH]; intros i H; simpl; [lia|].
  destruct (Z.ltb_spec i (len s)); simpl; [|lia].
  destruct (negb _); [apply IH; lia | lia].
Qed.

Lemma skipOSCBody_ge fuel s i : i <= skipOSCBody fuel s i.
Proof.
  revert i; induction fuel as [|f IH]; intros i; simpl; [lia|].
  destruct (i <? len s - 1); [|lia].
  destruct (_ && _); [lia|]. specialize (IH (i + 1)); lia.
Qed.

Lemma skipOSCBody_le fuel s i : i <= len s -> skipOSCBody fuel s i <= len s.
Proof.
  revert i; induction fuel as [|f IH]; intros i H; simpl; [lia|].
  destruct (Z.ltb_spec i (len s - 1)); [|lia].
  destruct (_ && _); [lia | apply IH; lia].
Qed.

Lemma firstn_slice (s : bytes) a b :
  0 <= a <= b -> b <= len s ->
  firstn (Z.to_nat a) s ++ slice s a b = firstn (Z.to_nat b) s.
Proof.
  intros H1 H2. unfold slice.
  replace (Z.to_nat b) with (Z.to_nat a + Z.to_nat (b - a))%nat by lia.
  rewrite <- (firstn_skipn (Z.to_nat a) s) at 3.
  rewrite firstn_app.
  rewrite firstn_firstn, Nat.min_r by lia.
  rewrite length_firstn. unfold len in *.
  replace (Z.to_nat a + Z.to_nat (b - a)
           - Init.Nat.min (Z.to_nat a) (length s))%nat
    with (Z.to_nat (b - a)) by lia.
  reflexivity.
Qed.

Lemma firstn_snoc (s : bytes) i :
  0 <= i < len s ->
  firstn (Z.to_nat i) s ++ [at_ s i] = firstn (Z.to_nat (i + 1)) s.
Proof.
  intros H. rewrite <- (firstn_slice s (a := i) (b := i + 1)) by lia.
  f_equal. unfold slice, at_. replace (Z.to_nat (i + 1 - i)) with 1%nat by lia.
  unfold len in H.
  assert (Hl : (Z.to_nat i < length s)%nat) by lia.
  revert Hl. generalize (Z.to_nat i). clear H.
  induction s as [|c s IH]; intros [|k] Hk; simpl in *; try lia; auto.
  apply IH. lia.
Qed.

Lemma sliceFrom_at (s : bytes) i :
  0 <= i < len s -> exists t, sliceFrom s i = at_ s i :: t.
Proof.
  intros H. unfold sliceFrom, at_, len in *.
  assert (Hl : (Z.to_nat i < length s)%nat) by lia.
  revert Hl. generalize (Z.to_nat i). clear H.
  induction s as [|c s IH]; intros [|k] Hk; simpl in *; try lia; eauto.
  apply IH. lia.
Qed.

Lemma decodeRuneInBytes_ascii b t :
  isASCII b = true -> decodeRuneInBytes (b :: t) = (code b, 1).
Proof. unfold isASCII, decodeRuneInBytes. now intros ->. Qed.

Lemma EncodeRune_ascii b :
  isASCII b = true -> GoLib.EncodeRune (code b) = [b].
Proof.
  unfold isASCII, GoLib.EncodeRune. intros H. pose proof (code_range b).
  replace ((0 <=? code b) && (code b <=? 127)) with true by lia.
  now rewrite byteOfZ_code.
Qed.

Section ClipASCII.

Variable s : bytes.
Hypothesis s_ascii : Forall (fun b => isASCII b = true) s.

Lemma truncStep_copied st :
  tr_i st < len s -> copied s st -> copied s (truncStep s st).
Proof.
  intros Hi [[H0 _] Hr]. unfold truncStep, copied.
  destruct (Byte.eqb (at_ s (tr_i st)) ESC) eqn:E.
  - destruct (Z.ltb_spec (tr_i st + 1) (len s)) as [H1|H1]; cbn [andb].
    + destruct (Byte.eqb (at_ s (tr_i st + 1)) LBRACKET).
      * pose proof (skipToLetter_ge (length s) s (tr_i st + 1 + 1)).
        pose proof (@skipToLetter_le (length s) s (tr_i st + 1 + 1)).
        cbn [tr_i tr_result].
        destruct (_ <? len s) eqn:El; (split; [lia|]);
          rewrite Hr; apply firstn_slice; lia.
      * destruct (Byte.eqb (at_ s (tr_i st + 1)) RBRACKET).
        -- pose proof (skipOSCBody_ge (length s) s (tr_i st + 1 + 1)).
           pose proof (@skipOSCBody_le (length s) s (tr_i st + 1 + 1)).
           cbn [tr_i tr_result]. split; [lia|].
           rewrite Hr; apply firstn_slice; lia.
        -- cbn [tr_i tr_result]. split; [lia|].
           rewrite Hr. apply firstn_snoc. lia.
    + cbn [tr_i tr_result]. split; [lia|].
      rewrite Hr. apply firstn_snoc. lia.
  - destruct (@sliceFrom_at s (tr_i st)) as [t Ht]; [lia|]. rewrite Ht.
    assert (Ha : isASCII (at_ s (tr_i st)) = true).
    { rewrite Forall_forall in s_ascii. apply s_ascii, at_In. lia. }
    rewrite decodeRuneInBytes_ascii by assumption.
    cbn [tr_i tr_result]. split; [lia|].
    rewrite EncodeRune_ascii by assumption.
    rewrite Hr. apply firstn_snoc. lia.
Qed.

Lemma truncLoop_copied fuel n st :
  copied s st -> copied s (truncLoop fuel s n st).
Proof.
  revert st; induction fuel as [|f IH]; intros st H; simpl; auto.
  destruct (Z.ltb_spec (tr_i st) (len s)); cbn [andb]; auto.
  destruct (_ <? n); auto. apply IH, truncStep_copied; auto.
Qed.

Lemma truncStep_advances st :
  tr_i st < len s -> copied s st ->
  tr_i st < tr_i (truncStep s st)
  /\ tr_visibleCount st <= tr_visibleCount (truncStep s st)
     <= tr_visibleCount st + 1.
Proof.
  intros Hi [[H0 _] Hr]. unfold truncStep.
  destruct (Byte.eqb (at_ s (tr_i st)) ESC) eqn:E.
  - destruct (Z.ltb_spec (tr_i st + 1) (len s)) as [H1|H1]; cbn [andb].
    + destruct (Byte.eqb (at_ s (tr_i st + 1)) LBRACKET).
      * pose proof (skipToLetter_ge (length s) s (tr_i st + 1 + 1)).
        cbn [tr_i tr_visibleCount]. destruct (_ <? len s); lia.
      * destruct (Byte.eqb (at_ s (tr_i st + 1)) RBRACKET).
        -- pose proof (skipOSCBody_ge (length s) s (tr_i st + 1 + 1)).
           cbn [tr_i tr_visibleCount]. lia.
        -- cbn [tr_i tr_visibleCount]. lia.
    + cbn [tr_i tr_visibleCount]. lia.
  - destruct (@sliceFrom_at s (tr_i st)) as [t Ht]; [lia|]. rewrite Ht.
    assert (Ha : isASCII (at_ s (tr_i st)) = true).
    { rewrite Forall_forall in s_ascii. apply s_ascii, at_In. lia. }
    rewrite decodeRuneInBytes_ascii by assumption.
    cbn [tr_i tr_visibleCount]. lia.
Qed.

Lemma truncLoop_count_mono fuel n st :
  copied s st ->
  tr_visibleCount st <= tr_visibleCount (truncLoop fuel s n st)
  <= tr_visibleCount st + Z.of_nat fuel.
Proof.
  revert st; induction fuel as [|f IH]; intros st H; simpl; [lia|].
  destruct (Z.ltb_spec (tr_i st) (len s)); cbn [andb]; [|lia].
  destruct (_ <? n); [|lia].
  pose proof (truncStep_advances H0 H).
  pose proof (IH _ (truncStep_copied H0 H)). lia.
Qed.

(** The loop leaves because the line is exhausted or the limit is reached,
    not because the fuel is spent. *)
Lemma truncLoop_exits fuel n st :
  copied s st -> len s - tr_i st <= Z.of_nat fuel ->
  len s <= tr_i (truncLoop fuel s n st)
  \/ n <= tr_visibleCount (truncLoop fuel s n st).
Proof.
  revert st; induction fuel as [|f IH]; intros st H Hf; simpl; [lia|].
  destruct (Z.ltb_spec (tr_i st) (len s)); cbn [andb]; [|lia].
  destruct (Z.ltb_spec (tr_visibleCount st) n); [|lia].
  apply IH; [now apply truncStep_copied|].
  pose proof (truncStep_advances H0 H). lia.
Qed.

(** A limit the count never reaches does not change the run. *)
Lemma truncLoop_limit fuel n N st :
  copied s st ->
  tr_visibleCount (truncLoop fuel s N st) < n ->
  tr_visibleCount (truncLoop fuel s N st) < N ->
  truncLoop fuel s n st = truncLoop fuel s N st.
Proof.
  revert st; induction fuel as [|f IH]; intros st H Hn HN; simpl in *; auto.
  destruct (Z.ltb_spec (tr_i st) (len s)); cbn [andb] in *; auto.
  destruct (Z.ltb_spec (tr_visibleCount st) N).
  - pose proof (truncLoop_count_mono f N (truncStep_copied H0 H)).
    pose proof (truncStep_advances H0 H).
    replace (tr_visibleCount st <? n) with true by lia.
    apply IH; auto. now apply truncStep_copied.
  - replace (tr_visibleCount st <? n) with false by lia. reflexivity.
Qed.

Lemma copied_init : copied s (mkTrunc 0 0 []).
Proof. split; simpl; [pose proof (len_nonneg s); lia | reflexivity]. Qed.

Lemma visibleCount_bound : 0 <= visibleCount s <= len s.
Proof.
  unfold visibleCount.
  pose proof (truncLoop_count_mono (length s) (len s + 1) copied_init).
  cbn [tr_visibleCount] in H. unfold len in *. lia.
Qed.

Lemma truncateVisibleChars_below n :
  visibleCount s < n -> truncateVisibleChars s n = s.
Proof.
  intros Hn. pose proof visibleCount_bound as Hb.
  unfold truncateVisibleChars, visibleCount in *.
  rewrite (@truncLoop_limit (length s) n (len s + 1)); auto using copied_init;
    [|lia].
  destruct (@truncLoop_exits (length s) (len s + 1) _ copied_init) as [H | H];
    [cbn [tr_i]; unfold len; lia | | lia].
  destruct (@truncLoop_copied (length s) (len s + 1) _ copied_init) as [Hi Hr].
  rewrite Hr. replace (tr_i _) with (len s) by lia.
  unfold len. rewrite Nat2Z.id. apply firstn_all.
Qed.

(** Whatever the limit, the clipper returns a prefix of the line. *)
Lemma truncateVisibleChars_prefix n :
  exists rest, s = truncateVisibleChars s n ++ rest.
Proof.
  unfold truncateVisibleChars.
  destruct (@truncLoop_copied (length s) n _ copied_init) as [_ Hr].
  rewrite Hr. eexists. symmetry. apply firstn_skipn.
Qed.

End ClipASCII.

(* ================================================================== *)
(** * Further properties of the code *)

(** ** The position mapper: where the plain bytes come from *)

Lemma StronglySorted_snoc (l : list Z) (i : Z) :
  StronglySorted Z.lt l -> Forall (fun p => p < i) l ->
  StronglySorted Z.lt (l ++ [i]).
Proof.
  induction 1 as [|x l Hs IH Hx]; intros Hl; simpl.
  - repeat constructor.
  - inversion Hl as [|? ? Hxi Hli]; subst. constructor; [now apply IH|].
    apply Forall_app. split; [exact Hx | repeat constructor; exact Hxi].
Qed.

Lemma skipCSIParams_le fuel s j : j <= len s -> skipCSIParams fuel s j <= len s.
Proof.
  revert j; induction fuel as [|f IH]; intros j H; simpl; [lia|].
  destruct (Z.ltb_spec j (len s)) as [Hj|Hj]; cbn [andb]; [|lia].
  destruct (_ || _); [apply IH; lia | lia].
Qed.

Lemma skipOSC_le fuel s j : j <= len s -> skipOSC fuel s j <= len s.
Proof.
  revert j; induction fuel as [|f IH]; intros j H; simpl; [lia|].
  destruct (Z.ltb_spec j (len s)) as [Hj|Hj]; [|lia].
  destruct (Z.ltb_spec j (len s - 1)) as [Hj'|Hj']; cbn [andb].
  - destruct (_ && _); [lia|]. destruct (Byte.eqb _ BEL); [lia|].
    apply IH; lia.
  - destruct (Byte.eqb _ BEL); [lia|]. apply IH; lia.
Qed.


Lemma mapped_weaken s i plain posMap j :
  mapped s (mkStrip i plain posMap) -> i <= j <= len s ->
  mapped s (mkStrip j plain posMap).
Proof.
  intros [H1 [H2 [H3 H4]]] Hj. unfold mapped.
  cbn [st_i st_plain st_posMap] in *.
  split; [lia|]. split; [|split; assumption].
  eapply Forall_impl; [|exact H2]. cbn beta. intros; lia.
Qed.

Lemma mapped_keep s i plain posMap :
  mapped s (mkStrip i plain posMap) -> i < len s ->
  mapped s (mkStrip (i + 1) (plain ++ [at_ s i]) (posMap ++ [i])).
Proof.
  intros [H1 [H2 [H3 H4]]] Hi. unfold mapped.
  cbn [st_i st_plain st_posMap] in *.
  split; [lia|]. split; [|split].
  - apply Forall_app. split.
    + eapply Forall_impl; [|exact H2]. cbn beta. intros; lia.
    + repeat constructor; lia.
  - apply StronglySorted_snoc; [assumption|].
    eapply Forall_impl; [|exact H2]. cbn beta. intros; lia.
  - rewrite map_app, H4. reflexivity.
Qed.

Lemma stripStep_mapped s st :
  st_i st < len s -> mapped s st -> mapped s (stripStep s st).
Proof.
  intros Hi H. destruct st as [i plain posMap]. cbn [st_i] in Hi.
  pose proof H as [H1 _]. cbn [st_i] in H1.
  unfold stripStep. cbn [st_i st_plain st_posMap].
  destruct (Z.ltb_spec i (len s - 1)) as [Hl|Hl]; cbn [andb];
    [|now apply mapped_keep].
  destruct (Byte.eqb (at_ s i) ESC); [|now apply mapped_keep].
  destruct (Byte.eqb (at_ s (i + 1)) LBRACKET).
  - pose proof (skipCSIParams_ge (length s) s (i + 2)).
    pose proof (@skipCSIParams_le (length s) s (i + 2)).
    apply (mapped_weaken H).
    destruct (Z.ltb_spec (skipCSIParams (length s) s (i + 2)) (len s)); lia.
  - destruct (Byte.eqb (at_ s (i + 1)) RBRACKET); [|now apply mapped_keep].
    pose proof (skipOSC_ge (length s) s (i + 2)).
    pose proof (@skipOSC_le (length s) s (i + 2)).
    apply (mapped_weaken H). lia.
Qed.

Lemma stripLoop_mapped fuel s st :
  mapped s st -> mapped s (stripLoop fuel s st).
Proof.
  revert st; induction fuel as [|f IH]; intros st H; simpl; auto.
  destruct (Z.ltb_spec (st_i st) (len s)); auto.
  apply IH, stripStep_mapped; auto.
Qed.

(** X1.  The position map of every line is strictly increasing, each of its
    entries is an offset into the line, and the plain text is the line read
    at those offsets: plain byte [k] is the byte of the line at
    [positionMap[k]]. *)
Theorem stripANSIWithMapping_reads_line (s : bytes) :
  StronglySorted Z.lt (snd (stripANSIWithMapping s))
  /\ Forall (fun p => 0 <= p < len s) (snd (stripANSIWithMapping s))
  /\ fst (stripANSIWithMapping s)
     = map (at_ s) (snd (stripANSIWithMapping s)).
Proof.
  unfold stripANSIWithMapping. cbn [fst snd].
  destruct (@stripLoop_mapped (length s) s (mkStrip 0 [] []))
    as [H1 [H2 [H3 H4]]].
  { split; cbn; [pose proof (len_nonneg s); lia|].
    split; [constructor|]. split; [constructor | reflexivity]. }
  split; [exact H3|]. split; [|exact H4].
  eapply Forall_impl; [|exact H2]. cbn beta. intros; lia.
Qed.

Lemma stripLoop_no_ESC fuel s k :
  ~ In ESC s -> (k <= length s)%nat -> (length s - k <= fuel)%nat ->
  stripLoop fuel s
    (mkStrip (Z.of_nat k) (firstn k s) (map Z.of_nat (seq 0 k)))
  = mkStrip (len s) s (map Z.of_nat (seq 0 (length s))).
Proof.
  intros Hs. revert k; induction fuel as [|f IH]; intros k Hk Hf.
  - assert (k = length s) by lia. subst k. cbn [stripLoop].
    now rewrite firstn_all.
  - cbn [stripLoop st_i].
    destruct (Z.ltb_spec (Z.of_nat k) (len s)) as [Hl|Hl].
    + unfold stripStep. cbn [st_i st_plain st_posMap].
      assert (E : Byte.eqb (at_ s (Z.of_nat k)) ESC = false).
      { destruct (Byte.eqb (at_ s (Z.of_nat k)) ESC) eqn:E; [|reflexivity].
        apply eqb_eq in E. exfalso. apply Hs. rewrite <- E. apply at_In. lia. }
      rewrite E, andb_false_r.
      pose proof (@firstn_snoc s (Z.of_nat k)) as Hsn.
      rewrite Nat2Z.id in Hsn. rewrite Hsn by lia.
      replace (Z.to_nat (Z.of_nat k + 1)) with (S k) by lia.
      replace (Z.of_nat k + 1) with (Z.of_nat (S k)) by lia.
      replace (map Z.of_nat (seq 0 k) ++ [Z.of_nat k])
        with (map Z.of_nat (seq 0 (S k)))
        by (rewrite seq_S, map_app; reflexivity).
      apply IH; unfold len in *; lia.
    + assert (k = length s) by (unfold len in *; lia). subst k.
      now rewrite firstn_all.
Qed.

(** X2.  A line that holds no escape byte is its own plain text, and its
    position map is the identity [0, 1, ..., len - 1]. *)
Theorem stripANSIWithMapping_no_ESC (s : bytes) :
  ~ In ESC s ->
  stripANSIWithMapping s = (s, map Z.of_nat (seq 0 (length s))).
Proof.
  intros Hs. unfold stripANSIWithMapping.
  change (mkStrip 0 [] [])
    with (mkStrip (Z.of_nat 0) (firstn 0 s) (map Z.of_nat (seq 0 0))).
  rewrite stripLoop_no_ESC by (auto; lia). reflexivity.
Qed.

Lemma stripANSIWithMapping_no_ESC_witness :
  ~ In ESC fooContent
  /\ stripANSIWithMapping fooContent
     = (fooContent, map Z.of_nat (seq 0 (length fooContent))).
Proof.
  assert (H : ~ In ESC fooContent).
  { intros H. vm_compute in H.
    repeat (destruct H as [H | H]; [discriminate H|]). exact H. }
  split; [exact H | exact (@stripANSIWithMapping_no_ESC fooContent H)].
Defined.

(** ** The match list: what is recorded and what is not missed *)

Lemma sliceFrom_cons_S (c : byte) (s : bytes) k :
  0 < k -> sliceFrom (c :: s) k = sliceFrom s (k - 1).
Proof.
  intros H. unfold sliceFrom.
  replace (Z.to_nat k) with (S (Z.to_nat (k - 1))) by lia. reflexivity.
Qed.

Lemma sliceFrom_sliceFrom (s : bytes) a b :
  0 <= a -> 0 <= b -> sliceFrom (sliceFrom s a) b = sliceFrom s (a + b).
Proof.
  intros Ha Hb. unfold sliceFrom. rewrite skipn_skipn. f_equal. lia.
Qed.

(** [strings.Index] returns the first occurrence: there is none before it,
    and none at all when it returns [-1]. *)
Lemma Index_before s sub k :
  0 <= k -> GoLib.Index s sub = -1 \/ k < GoLib.Index s sub ->
  GoLib.HasPrefix (sliceFrom s k) sub = false.
Proof.
  revert k; induction s as [|c s IH]; intros k Hk H.
  - rewrite Index_nil in H.
    replace (sliceFrom [] k) with ([] : bytes)
      by (unfold sliceFrom; now rewrite skipn_nil).
    destruct (GoLib.HasPrefix [] sub); [exfalso; lia | reflexivity].
  - rewrite Index_cons in H.
    destruct (GoLib.HasPrefix (c :: s) sub) eqn:E; [exfalso; lia|].
    destruct (Z.eq_dec k 0) as [->|Hne]; [exact E|].
    rewrite sliceFrom_cons_S by lia. apply IH; [lia|].
    pose proof (Index_range s sub).
    destruct (Z.eqb_spec (GoLib.Index s sub) (-1)); [left; assumption|].
    right. lia.
Qed.

Section LineMatches.

Variable searchTerm : bytes.
Hypothesis searchTerm_nonempty : searchTerm <> [].
Variables (lineNum : Z) (plainLine searchLine : bytes) (posMap : list Z).

Lemma findInLine_acc fuel idx acc :
  findInLine fuel lineNum plainLine searchLine searchTerm posMap idx acc
  = match findInLine fuel lineNum plainLine searchLine searchTerm posMap
            idx [] with
    | Some new => Some (acc ++ new)
    | None => None
    end.
Proof.
  revert idx acc; induction fuel as [|f IH]; intros idx acc;
    cbn [findInLine]; [reflexivity|].
  destruct (_ || _); [reflexivity|].
  destruct (_ =? -1); [now rewrite app_nil_r|].
  rewrite IH. cbn [app].
  match goal with
  | |- _ = match findInLine f _ _ _ _ _ ?i [?m] with _ => _ end =>
    rewrite (IH i [m])
  end.
  destruct (findInLine f _ _ _ _ _ _ []); [|reflexivity].
  now rewrite <- app_assoc.
Qed.

Lemma findInLine_sound_complete fuel idx :
  0 <= idx <= len searchLine ->
  len searchLine - idx < Z.of_nat fuel ->
  exists new,
    findInLine fuel lineNum plainLine searchLine searchTerm posMap idx []
    = Some new
    /\ Forall (recordedAs searchTerm lineNum plainLine searchLine posMap) new
    /\ (forall p, idx <= p -> occursAt searchLine searchTerm p ->
          exists m, In m new
                    /\ column m <= p < column m + len searchTerm).
Proof.
  pose proof (searchTerm_len searchTerm_nonempty) as Hst.
  revert idx; induction fuel as [|f IH]; intros idx Hidx Hf; [lia|].
  cbn [findInLine].
  replace ((idx <? 0) || (len searchLine <? idx)) with false by lia.
  pose proof (Index_range (sliceFrom searchLine idx) searchTerm) as Hr.
  pose proof (Index_bound (sliceFrom searchLine idx) searchTerm) as Hb.
  pose proof (Index_found (sliceFrom searchLine idx) searchTerm) as Hfd.
  pose proof (@Index_before (sliceFrom searchLine idx) searchTerm) as Hbe.
  rewrite len_sliceFrom in Hb by lia.
  remember (GoLib.Index (sliceFrom searchLine idx) searchTerm) as pos
    eqn:Epos.
  destruct (Z.eqb_spec pos (-1)) as [E|E].
  - exists []. split; [reflexivity|]. split; [constructor|].
    intros p Hp [_ Ho]. exfalso.
    specialize (Hbe (p - idx)). rewrite sliceFrom_sliceFrom in Hbe by lia.
    replace (idx + (p - idx)) with p in Hbe by lia.
    rewrite Hbe in Ho; [discriminate | lia | left; assumption].
  - assert (Hpos : 0 <= pos) by lia.
    specialize (Hb Hpos). specialize (Hfd Hpos).
    rewrite sliceFrom_sliceFrom in Hfd by lia.
    rewrite findInLine_acc.
    destruct (IH (idx + pos + len searchTerm)) as [new [E1 [E2 E3]]];
      [lia | lia |].
    rewrite E1. eexists. split; [reflexivity|]. split.
    + constructor; [|exact E2].
      unfold recordedAs, occursAt. cbn [lineNumber column originalColumn text].
      split; [reflexivity|]. split; [split; [lia | exact Hfd]|].
      split; [lia|]. split; reflexivity.
    + intros p Hp Ho.
      destruct (Z.lt_ge_cases p (idx + pos + len searchTerm)) as [Hlt|Hge].
      * eexists. split; [left; reflexivity|]. cbn [column].
        split; [|lia].
        destruct (Z.lt_ge_cases p (idx + pos)) as [Hlt'|]; [|lia].
        exfalso. destruct Ho as [_ Ho].
        specialize (Hbe (p - idx)). rewrite sliceFrom_sliceFrom in Hbe by lia.
        replace (idx + (p - idx)) with p in Hbe by lia.
        rewrite Hbe in Ho; [discriminate | lia | right; lia].
      * destruct (E3 p Hge Ho) as [m [Hm1 Hm2]].
        exists m. split; [right; exact Hm1 | exact Hm2].
Qed.

End LineMatches.

Section AllLines.

Variable ToLower : bytes -> bytes.
Variable cs : bool.
Variable searchTerm : bytes.
Hypothesis searchTerm_nonempty : searchTerm <> [].

(** One line: the loop returns, every match it records is an occurrence of
    the term on that line, and every occurrence of the term on that line
    starts inside a recorded match. *)
Lemma lineMatches_sound_complete lineNum line :
  exists new,
    lineMatches ToLower cs searchTerm lineNum line = Some new
    /\ Forall (fun m =>
                 lineNumber m = lineNum
                 /\ occursAt (if cs then fst (stripANSIWithMapping line)
                              else ToLower (fst (stripANSIWithMapping line)))
                             searchTerm (column m)) new
    /\ (forall p,
          occursAt (if cs then fst (stripANSIWithMapping line)
                    else ToLower (fst (stripANSIWithMapping line)))
                   searchTerm p ->
          exists m, In m new
                    /\ column m <= p < column m + len searchTerm).
Proof.
  unfold lineMatches.
  destruct (stripANSIWithMapping line) as [plainLine posMap]. cbn [fst].
  set (sl := if cs then plainLine else ToLower plainLine).
  destruct (@findInLine_sound_complete searchTerm searchTerm_nonempty lineNum
              plainLine sl posMap (S (length sl)) 0)
    as [new [E1 [E2 E3]]].
  { pose proof (len_nonneg sl). lia. }
  { unfold len. lia. }
  exists new. split; [exact E1|]. split.
  - eapply Forall_impl; [|exact E2]. intros m [H1 [H2 _]]. split; assumption.
  - intros p Hp. apply E3; [|exact Hp]. destruct Hp as [Hp _]. exact Hp.
Qed.

(** All lines: the list stored is the matches of line 0, then those of line
    1, and so on. *)
Lemma findInLines_concat lines lineNum acc :
  exists news,
    findInLines ToLower cs searchTerm lines lineNum acc
    = Some (acc ++ concat news)
    /\ length news = length lines
    /\ forall j, (j < length lines)%nat ->
         lineMatches ToLower cs searchTerm (lineNum + Z.of_nat j)
                     (nth j lines []) = Some (nth j news []).
Proof.
  revert lineNum acc; induction lines as [|line rest IH]; intros lineNum acc.
  - exists []. cbn. rewrite app_nil_r. split; [reflexivity|].
    split; [reflexivity|]. intros j Hj. lia.
  - destruct (lineMatches_sound_complete lineNum line) as [new [E1 _]].
    pose proof E1 as E1'. unfold lineMatches in E1'.
    cbn [findInLines].
    destruct (stripANSIWithMapping line) as [plainLine posMap].
    rewrite findInLine_acc, E1'.
    destruct (IH (lineNum + 1) (acc ++ new)) as [news [N1 [N2 N3]]].
    exists (new :: news). rewrite N1. cbn [concat].
    rewrite <- app_assoc. split; [reflexivity|].
    split; [cbn [length]; lia|].
    intros [|j] Hj; cbn [nth].
    + replace (lineNum + Z.of_nat 0) with lineNum by lia. exact E1.
    + replace (lineNum + Z.of_nat (S j)) with (lineNum + 1 + Z.of_nat j)
        by lia.
      apply N3. cbn [length] in Hj. lia.
Qed.

End AllLines.

Lemma searchLineOf_nth ToLower cs content k :
  searchLineOf ToLower cs content k
  = (if cs
     then fst (stripANSIWithMapping
                 (nth (Z.to_nat k) (GoLib.SplitLines content) []))
     else ToLower (fst (stripANSIWithMapping
                          (nth (Z.to_nat k) (GoLib.SplitLines content) [])))).
Proof. unfold searchLineOf. destruct cs; reflexivity. Qed.

(** C4.  For every term and content [findAllMatches] returns, and the match
    list it stores is in line-ascending, then column-ascending order; of two
    matches recorded one after the other on the same line, the second is the
    first occurrence of the term at or after the end of the first, so no two
    matches overlap.  What is recorded is what the search finds: every match
    is an occurrence of the term on its line; the first occurrence on each
    line is recorded; and every occurrence on a line starts inside a
    recorded match of that line, so the search goes on after each match and
    leaves out only occurrences that overlap a recorded one.
    ([strings.ToLower] never maps a non-empty string to the empty one.) *)
Theorem findAllMatches_order ToLower (s : SearchState) (content : bytes) :
  (forall t, t <> [] -> ToLower t <> []) ->
  exists s',
    findAllMatches ToLower s content = Some s'
    /\ StronglySorted matchBefore (matches s')
    /\ (forall pre m1 m2 post,
          matches s' = pre ++ m1 :: m2 :: post ->
          lineNumber m1 = lineNumber m2 ->
          resumesAfter
            (searchLineOf ToLower (caseSensitive s) content (lineNumber m1))
            (searchTermOf ToLower s) m1 m2
          /\ column m1 + len (searchTermOf ToLower s) <= column m2)
    /\ (forall m, In m (matches s') ->
          0 <= lineNumber m
               < Z.of_nat (length (GoLib.SplitLines content))
          /\ occursAt
               (searchLineOf ToLower (caseSensitive s) content (lineNumber m))
               (searchTermOf ToLower s) (column m))
    /\ (term s <> [] ->
        forall k,
          0 <= k < Z.of_nat (length (GoLib.SplitLines content)) ->
          (0 <= GoLib.Index
                  (searchLineOf ToLower (caseSensitive s) content k)
                  (searchTermOf ToLower s) ->
           exists m, In m (matches s') /\ lineNumber m = k
                     /\ column m
                        = GoLib.Index
                            (searchLineOf ToLower (caseSensitive s) content k)
                            (searchTermOf ToLower s))
          /\ (forall p,
                occursAt (searchLineOf ToLower (caseSensitive s) content k)
                         (searchTermOf ToLower s) p ->
                exists m, In m (matches s') /\ lineNumber m = k
                          /\ column m <= p
                             < column m + len (searchTermOf ToLower s))).
Proof.
  intros HL. unfold findAllMatches.
  change (term (setMatches s [])) with (term s).
  change (caseSensitive (setMatches s [])) with (caseSensitive s).
  change (if caseSensitive s then term s else ToLower (term s))
    with (searchTermOf ToLower s).
  destruct (term s) as [|c t] eqn:Et; cbn [isEmpty].
  - eexists. split; [reflexivity|]. split; [constructor|].
    split; [intros [|? ?] ? ? ? H; discriminate H|].
    split; [intros m []|]. intros H; contradiction.
  - assert (Hne : searchTermOf ToLower s <> []).
    { unfold searchTermOf. rewrite Et.
      destruct (caseSensitive s); [discriminate | apply HL; discriminate]. }
    set (st := searchTermOf ToLower s) in *.
    set (cs := caseSensitive s) in *.
    set (lines := GoLib.SplitLines content) in *.
    destruct (@findInLines_records ToLower (searchLineOf ToLower cs content)
                st Hne cs content (fun k => eq_refl) lines 0 [])
      as [new [E1 [_ E2]]]; [lia | reflexivity |].
    destruct (@findInLines_concat ToLower cs st Hne lines 0 [])
      as [news [N1 [N2 N3]]].
    rewrite E1 in N1. cbn [app] in N1. injection N1 as N1.
    rewrite E1. cbn [app]. eexists. split; [reflexivity|].
    cbn [matches setMatches].
    (* every match is an occurrence on its line *)
    assert (Hsound : forall m, In m new ->
              0 <= lineNumber m < Z.of_nat (length lines)
              /\ occursAt (searchLineOf ToLower cs content (lineNumber m)) st
                          (column m)).
    { intros m Hm. rewrite N1 in Hm. apply in_concat in Hm.
      destruct Hm as [l [Hl Hm]].
      destruct (In_nth _ _ [] Hl) as [j [Hj Ej]]. rewrite N2 in Hj.
      specialize (N3 j Hj). rewrite Ej in N3.
      destruct (@lineMatches_sound_complete ToLower cs st Hne
                  (0 + Z.of_nat j) (nth j lines [])) as [l' [L1 [L2 _]]].
      rewrite N3 in L1. injection L1 as <-.
      rewrite Forall_forall in L2. destruct (L2 m Hm) as [Hn Ho].
      rewrite Hn. split; [lia|].
      rewrite searchLineOf_nth.
      replace (Z.to_nat (0 + Z.of_nat j)) with j by lia.
      fold lines. destruct cs; exact Ho. }
    (* every occurrence starts inside a recorded match *)
    assert (Hcomplete : forall k p,
              0 <= k < Z.of_nat (length lines) ->
              occursAt (searchLineOf ToLower cs content k) st p ->
              exists m, In m new /\ lineNumber m = k
                        /\ column m <= p < column m + len st).
    { intros k p Hk Ho.
      assert (Hj : (Z.to_nat k < length lines)%nat) by lia.
      specialize (N3 _ Hj).
      destruct (@lineMatches_sound_complete ToLower cs st Hne
                  (0 + Z.of_nat (Z.to_nat k)) (nth (Z.to_nat k) lines []))
        as [l' [L1 [L2 L3]]].
      rewrite N3 in L1. injection L1 as <-.
      rewrite searchLineOf_nth in Ho. fold lines in Ho.
      destruct (L3 p) as [m [Hm Hc]]; [destruct cs; exact Ho|].
      exists m. split; [|split; [|exact Hc]].
      - rewrite N1. apply in_concat. eexists. split; [|exact Hm].
        apply nth_In. lia.
      - rewrite Forall_forall in L2. destruct (L2 m Hm) as [Hn _].
        rewrite Hn. lia. }
    split.
    { apply Sorted_StronglySorted; [exact matchBefore_trans|].
      eapply Sorted_impl; [|exact E2]. intros x y [H _]; exact H. }
    split.
    { intros pre m1 m2 post Hl Hsame.
      destruct (@Sorted_adjacent _ _ _ _ _ _ _ E2 Hl) as [_ H].
      specialize (H Hsame). split; [exact H|]. destruct H as [H1 H2]. lia. }
    split; [exact Hsound|].
    intros _ k Hk. split; [|intros p Hp; now apply Hcomplete].
    intros Hi.
    destruct (Hcomplete k
                (GoLib.Index (searchLineOf ToLower cs content k) st) Hk)
      as [m [Hm [Hn Hc]]].
    { split; [exact Hi|]. now apply Index_found. }
    exists m. split; [exact Hm|]. split; [exact Hn|].
    destruct (Hsound m Hm) as [_ [Hc0 Ho]]. rewrite Hn in Ho.
    destruct (Z.eq_dec (column m)
                (GoLib.Index (searchLineOf ToLower cs content k) st))
      as [E|E]; [exact E|].
    exfalso. rewrite Index_before in Ho; [discriminate | exact Hc0 |].
    right. lia.
Qed.

Lemma findAllMatches_order_witness :
  (forall t, t <> [] -> GoLib.asciiToLower t <> [])
  /\ option_map matches
       (findAllMatches GoLib.asciiToLower
          (setTerm (NewSearchState None) (B "foo")) fooContent)
     = Some [mkMatch 0 2 2 (B "foo"); mkMatch 0 8 8 (B "foo")]
  /\ StronglySorted matchBefore
       [mkMatch 0 2 2 (B "foo"); mkMatch 0 8 8 (B "foo")]
  /\ resumesAfter (searchLineOf GoLib.asciiToLower false fooContent 0)
       (B "foo") (mkMatch 0 2 2 (B "foo")) (mkMatch 0 8 8 (B "foo"))
  /\ (forall p,
        occursAt (searchLineOf GoLib.asciiToLower false fooContent 0)
                 (B "foo") p ->
        exists m, In m [mkMatch 0 2 2 (B "foo"); mkMatch 0 8 8 (B "foo")]
                  /\ lineNumber m = 0 /\ column m <= p < column m + 3).
Proof.
  split; [exact asciiToLower_nonempty|].
  destruct (@findAllMatches_order GoLib.asciiToLower
              (setTerm (NewSearchState None) (B "foo")) fooContent
              asciiToLower_nonempty) as [s' [H1 [H2 [H3 [_ H5]]]]].
  assert (E : matches s'
              = [mkMatch 0 2 2 (B "foo"); mkMatch 0 8 8 (B "foo")]).
  { vm_compute in H1. injection H1 as <-. reflexivity. }
  rewrite E in *.
  split; [rewrite H1; cbn [option_map]; now rewrite E|].
  split; [exact H2|]. split.
  - exact (proj1 (H3 [] _ _ [] eq_refl eq_refl)).
  - intros p Hp.
    refine (proj2 (H5 _ 0 _) p Hp); [discriminate | vm_compute; split; congruence].
Defined.

(** ** The hyperlink injector, end to end *)

Lemma slice_prefix_app (r tail : bytes) lo hi P :
  0 <= lo <= hi -> hi <= P -> P <= len r ->
  slice (firstn (Z.to_nat P) r ++ tail) lo hi = slice r lo hi.
Proof.
  intros H1 H2 H3. unfold slice, len in *.
  rewrite skipn_app, length_firstn, Nat.min_l by lia.
  rewrite firstn_app, length_skipn, length_firstn, Nat.min_l by lia.
  replace (Z.to_nat (hi - lo) - (Z.to_nat P - Z.to_nat lo))%nat with 0%nat
    by lia.
  cbn [firstn]. rewrite app_nil_r.
  rewrite skipn_firstn_comm, firstn_firstn. f_equal. lia.
Qed.

Lemma slice_suffix_app (r tail : bytes) lo P :
  0 <= lo <= P -> P <= len r ->
  slice (firstn (Z.to_nat P) r ++ tail) lo (P + len tail)
  = slice r lo P ++ tail.
Proof.
  intros H1 H2. unfold slice, len in *.
  rewrite skipn_app, length_firstn, Nat.min_l by lia.
  replace (Z.to_nat lo - Z.to_nat P)%nat with 0%nat by lia. cbn [skipn].
  rewrite firstn_app, length_skipn, length_firstn, Nat.min_l by lia.
  replace (Z.to_nat (P + Z.of_nat (length tail) - lo)
           - (Z.to_nat P - Z.to_nat lo))%nat with (length tail) by lia.
  rewrite firstn_all. f_equal.
  rewrite skipn_firstn_comm, firstn_firstn. f_equal. lia.
Qed.

Lemma slice_from_0 (r : bytes) P : slice r 0 P = firstn (Z.to_nat P) r.
Proof. unfold slice. cbn [skipn Z.to_nat]. f_equal. lia. Qed.

Lemma slice_to_end (r : bytes) lo : slice r lo (len r) = sliceFrom r lo.
Proof.
  unfold slice, sliceFrom, len. apply firstn_all2. rewrite length_skipn. lia.
Qed.

Lemma wellSpaced_le ms lo P : wellSpaced ms lo P -> Forall fieldsInOrder ms
  -> lo <= P.
Proof.
  revert lo; induction ms as [|m ms IH]; intros lo H Hf; cbn in H; [exact H|].
  destruct H as [H1 [H2 H3]]. inversion Hf; subst.
  apply IH in H3; [|assumption]. unfold fieldsInOrder in H2. lia.
Qed.

Lemma wellSpaced_fields ms lo P : wellSpaced ms lo P -> Forall fieldsInOrder ms.
Proof.
  revert lo; induction ms as [|m ms IH]; intros lo H; [constructor|].
  destruct H as [_ [H2 H3]]. constructor; [exact H2 | eapply IH; eauto].
Qed.

Lemma wellSpaced_widen ms lo P P' :
  wellSpaced ms lo P -> P <= P' -> wellSpaced ms lo P'.
Proof.
  revert lo; induction ms as [|m ms IH]; intros lo H HP; cbn in *; [lia|].
  destruct H as [H1 [H2 H3]]. split; [exact H1|]. split; [exact H2|].
  now apply IH.
Qed.

Lemma wellSpaced_snoc ms m lo P :
  wellSpaced (ms ++ [m]) lo P ->
  wellSpaced ms lo (matchStart m) /\ fieldsInOrder m /\ matchEnd m <= P.
Proof.
  revert lo; induction ms as [|x ms IH]; intros lo H; cbn in *.
  - tauto.
  - destruct H as [H1 [H2 H3]]. apply IH in H3. tauto.
Qed.

Section Segments.

Variable hexToANSI : bytes -> option Z.
Variables (cfg : option Config) (hoveredURL : bytes).
Variable rendered : bytes.

Lemma segsUpTo_snoc_rejected ms m pos P :
  notURL (linkURL rendered m) = true ->
  segsUpTo hexToANSI cfg hoveredURL rendered (ms ++ [m]) pos P
  = segsUpTo hexToANSI cfg hoveredURL rendered ms pos P.
Proof.
  intros Hm. revert pos; induction ms as [|x ms IH]; intros pos;
    cbn [app segsUpTo].
  - now rewrite Hm.
  - destruct (notURL (linkURL rendered x)); now rewrite IH.
Qed.

Lemma segsUpTo_snoc_accepted ms m pos P :
  notURL (linkURL rendered m) = false ->
  segsUpTo hexToANSI cfg hoveredURL rendered (ms ++ [m]) pos P
  = segsUpTo hexToANSI cfg hoveredURL rendered ms pos (matchStart m)
    ++ hyperlinkFor hexToANSI cfg hoveredURL (linkURL rendered m)
         (linkText rendered m)
    ++ slice rendered (matchEnd m) P.
Proof.
  intros Hm. revert pos; induction ms as [|x ms IH]; intros pos;
    cbn [app segsUpTo].
  - now rewrite Hm.
  - destruct (notURL (linkURL rendered x)); rewrite IH; [reflexivity|].
    now rewrite <- !app_assoc.
Qed.

(** The second loop of [addHyperlinks], run on matches that lie one after the
    other: what it has rewritten when it has gone back to offset 0. *)
Lemma processAll_segs ms P tail :
  wellSpaced ms 0 P -> P <= len rendered ->
  processAll hexToANSI cfg hoveredURL
    (firstn (Z.to_nat P) rendered ++ tail) (rev ms)
  = Some (segsUpTo hexToANSI cfg hoveredURL rendered ms 0 P ++ tail).
Proof.
  revert P tail; induction ms as [|m ms IH] using rev_ind;
    intros P tail Hw HP.
  - cbn. now rewrite slice_from_0.
  - apply wellSpaced_snoc in Hw. destruct Hw as [Hw [Hm HmP]].
    pose proof (@wellSpaced_le _ _ _ Hw (@wellSpaced_fields _ _ _ Hw)) as H0.
    unfold fieldsInOrder in Hm.
    rewrite rev_app_distr. cbn [rev app processAll].
    assert (Hlen : len (firstn (Z.to_nat P) rendered ++ tail) = P + len tail).
    { rewrite len_app. unfold len in *. rewrite length_firstn. lia. }
    pose proof (len_nonneg tail) as Ht.
    unfold processMatch.
    rewrite (@sliceChecked_Some _ (textStart m) (textEnd m)) by lia.
    rewrite (@sliceChecked_Some _ (urlStart m) (urlEnd m)) by lia.
    rewrite !slice_prefix_app by lia.
    fold (linkURL rendered m). fold (linkText rendered m).
    destruct (notURL (linkURL rendered m)) eqn:Eu.
    + rewrite segsUpTo_snoc_rejected by assumption.
      apply IH; [|assumption]. eapply wellSpaced_widen; [exact Hw | lia].
    + rewrite (@sliceChecked_Some _ 0 (matchStart m)) by lia.
      rewrite (@sliceChecked_Some _ (matchEnd m)) by lia.
      rewrite Hlen, slice_prefix_app, slice_suffix_app by lia.
      rewrite slice_from_0, segsUpTo_snoc_accepted by assumption.
      rewrite IH by (assumption || lia).
      now rewrite <- !app_assoc.
Qed.

(** Over the occurrences or over the valid matches, the rewritten text is
    the same. *)
Lemma segsUpTo_collectValid occs pos :
  segsUpTo hexToANSI cfg hoveredURL rendered (collectValid rendered occs) pos
           (len rendered)
  = linksRewritten hexToANSI cfg hoveredURL rendered occs pos.
Proof.
  revert pos; induction occs as [|c occs IH]; intros pos;
    cbn [collectValid segsUpTo linksRewritten].
  - apply slice_to_end.
  - destruct (Z.leb_spec 0 (openBracketFor rendered (cb_start c))) as [H|H].
    + replace (openBracketFor rendered (cb_start c) <? 0) with false by lia.
      cbn [segsUpTo orb]. unfold linkURL, linkText.
      cbn [urlStart urlEnd textStart textEnd matchStart matchEnd].
      destruct (notURL _); now rewrite IH.
    + replace (openBracketFor rendered (cb_start c) <? 0) with true by lia.
      cbn [orb]. apply IH.
Qed.

End Segments.

Lemma collectValid_inRange rendered :
  Forall (fun m => 0 <= matchStart m /\ fieldsInOrder m
                   /\ matchEnd m <= len rendered)
         (collectValid rendered (closeBracketMatches rendered)).
Proof.
  apply Forall_forall. intros l Hl. apply collectValid_In in Hl.
  destruct Hl as [m [Hm [L1 [L2 [L3 [L4 [L5 [L6 L7]]]]]]]].
  unfold closeBracketMatches in Hm.
  apply findAllCloseBracket_In in Hm; [|lia].
  destruct Hm as [p [Hp Hp']].
  apply matchCloseBracketAt_range in Hp'; [|lia].
  unfold fieldsInOrder. lia.
Qed.

Lemma wellSpaced_of_spansApart rendered ms lo :
  Forall (fun m => 0 <= matchStart m /\ fieldsInOrder m
                   /\ matchEnd m <= len rendered) ms ->
  spansApart ms ->
  (forall m, hd_error ms = Some m -> lo <= matchStart m) ->
  lo <= len rendered ->
  wellSpaced ms lo (len rendered).
Proof.
  revert lo; induction ms as [|m ms IH]; intros lo Hf Hs Hh Hlo;
    cbn [wellSpaced]; [exact Hlo|].
  inversion Hf as [|? ? [F1 [F2 F3]] Hf']; subst.
  inversion Hs as [|? ? Hs' Hd]; subst.
  split; [now apply Hh|]. split; [exact F2|].
  apply IH; auto.
  intros m' Hm'. destruct ms as [|x ms']; [discriminate|].
  injection Hm' as <-. now inversion Hd.
Qed.

(** C3 (as amended).  The backward scan looks for an unescaped "[" anywhere
    before the "](" in the text, and the URL is the parenthesised part
    stripped of control sequences, trimmed of surrounding white space and
    truncated at its first space.  A text all of whose occurrences are
    rejected (no bracket, or a URL without "://" and without the "mailto:"
    prefix) is returned unchanged; and whenever the bracketed spans lie one
    after the other, the result is the text with exactly the accepted spans
    replaced by their hyperlinks: every rejected occurrence is left as
    literal text, and so is all the text between the accepted spans. *)
Theorem addHyperlinks_rejected_left_literal hexToANSI cfg hoveredURL
    (rendered originalMarkdown : bytes) :
  ((forall m, In m (closeBracketMatches rendered) ->
      openBracketFor rendered (cb_start m) < 0
      \/ notURL (recoverURL
                   (slice rendered (cb_urlStart m) (cb_urlEnd m))) = true) ->
   addHyperlinks hexToANSI rendered originalMarkdown cfg hoveredURL
   = Some rendered)
  /\ (spansApart (collectValid rendered (closeBracketMatches rendered)) ->
      addHyperlinks hexToANSI rendered originalMarkdown cfg hoveredURL
      = Some (linksRewritten hexToANSI cfg hoveredURL rendered
                (closeBracketMatches rendered) 0)).
Proof.
  split.
  - intros H. unfold addHyperlinks.
    apply processAll_all_notURL. apply Forall_forall. intros l Hl.
    apply in_rev in Hl.
    pose proof (proj1 (Forall_forall _ _) (collectValid_inRange rendered) l Hl)
      as [R1 [R2 R3]].
    apply collectValid_In in Hl.
    destruct Hl as [m [Hm [L1 [L2 [L3 [L4 [L5 [L6 L7]]]]]]]].
    unfold fieldsInOrder in R2. split; [lia|].
    destruct (H m Hm) as [Hbad | Hbad]; [lia|].
    now rewrite L6, L7.
  - intros Hs. unfold addHyperlinks.
    pose proof (@processAll_segs hexToANSI cfg hoveredURL rendered
                  (collectValid rendered (closeBracketMatches rendered))
                  (len rendered) []) as H.
    assert (E : firstn (Z.to_nat (len rendered)) rendered = rendered)
      by (unfold len; rewrite Nat2Z.id; apply firstn_all).
    rewrite E, !app_nil_r in H.
    rewrite H; [now rewrite segsUpTo_collectValid | | lia].
    apply wellSpaced_of_spansApart;
      [apply collectValid_inRange | exact Hs | | apply len_nonneg].
    intros m Hm.
    pose proof (collectValid_inRange rendered) as Hr.
    destruct (collectValid rendered (closeBracketMatches rendered));
      [discriminate|].
    injection Hm as <-. inversion Hr as [|? ? [R1 _] _]. exact R1.
Qed.

Lemma addHyperlinks_rejected_left_literal_witness :
  ((forall m, In m (closeBracketMatches noLinkLine) ->
      openBracketFor noLinkLine (cb_start m) < 0
      \/ notURL (recoverURL
                   (slice noLinkLine (cb_urlStart m) (cb_urlEnd m))) = true)
   /\ length (closeBracketMatches noLinkLine) = 2%nat
   /\ addHyperlinks hexToANSI_214 noLinkLine [] None [] = Some noLinkLine)
  /\ (spansApart (collectValid mixedLine (closeBracketMatches mixedLine))
      /\ length (closeBracketMatches mixedLine) = 3%nat
      /\ addHyperlinks hexToANSI_214 mixedLine [] None []
         = Some (B "x](u) " ++ plainUnderline (B "http://x.y") (B "a")
                 ++ B " [b](foo)")).
Proof.
  split.
  - assert (H : forall m, In m (closeBracketMatches noLinkLine) ->
       openBracketFor noLinkLine (cb_start m) < 0
       \/ notURL (recoverURL
                    (slice noLinkLine (cb_urlStart m) (cb_urlEnd m))) = true).
    { intros m Hm. vm_compute in Hm.
      destruct Hm as [<- | [<- | []]]; [left | right]; evaluate. }
    split; [exact H|]. split; [evaluate|].
    exact (proj1 (addHyperlinks_rejected_left_literal
                    hexToANSI_214 None [] noLinkLine []) H).
  - assert (H : spansApart
                  (collectValid mixedLine (closeBracketMatches mixedLine))).
    { vm_compute. repeat constructor. discriminate. }
    split; [exact H|]. split; [evaluate|].
    rewrite (proj2 (addHyperlinks_rejected_left_literal
                      hexToANSI_214 None [] mixedLine []) H).
    vm_compute. reflexivity.
Defined.

(** C3 as stated fails twice.  A link whose text is wrapped over two lines
    has no "[" on the line of its "](", and is rewritten all the same; a
    parenthesised part that starts with a space gives, truncated at its
    first space, an empty URL, and the link is rewritten all the same. *)
Lemma addHyperlinks_same_line_counterexample :
  (map cb_start (closeBracketMatches multiLineLink) = [4]
   /\ findOpenBracketOnLine_spec (S (length multiLineLink)) multiLineLink 3
      = -1
   /\ openBracketFor multiLineLink 4 = 0
   /\ addHyperlinks hexToANSI_214 multiLineLink [] None []
      = Some (plainUnderline (B "http://x.y") (B "a" ++ [NEWLINE] ++ B "b"))
   /\ addHyperlinks hexToANSI_214 multiLineLink [] None []
      <> Some multiLineLink)
  /\ (map (fun m => recoverURL_spec
                      (slice spacedLink (cb_urlStart m) (cb_urlEnd m)))
          (closeBracketMatches spacedLink) = [[]]
      /\ notURL [] = true
      /\ addHyperlinks hexToANSI_214 spacedLink [] None []
         = Some (plainUnderline (B "http://x.y") (B "a"))
      /\ addHyperlinks hexToANSI_214 spacedLink [] None []
         <> Some spacedLink).
Proof.
  split.
  - split; [evaluate|]. split; [evaluate|]. split; [evaluate|].
    split; evaluate.
  - split; [evaluate|]. split; [evaluate|]. split; evaluate.
Qed.

(** Where two spans share their opening bracket, the second loop reads the
    earlier one at offsets that the later replacement has moved: the image
    of ["[![logo](img/logo.png)](https://example.com)"], whose own URL fails
    the shape check, is rewritten into a link to [";;https://ex"].  The
    amended claim makes no statement about such texts. *)
Lemma addHyperlinks_shared_bracket :
  ~ spansApart (collectValid imageInLink (closeBracketMatches imageInLink))
  /\ map (fun m => notURL (linkURL imageInLink m))
         (collectValid imageInLink (closeBracketMatches imageInLink))
     = [true; false]
  /\ addHyperlinks hexToANSI_214 imageInLink [] None []
     = Some (B "[!" ++ plainUnderline (B ";;https://ex")
                         (B "[4m" ++ [ESC])
             ++ B "mple.com" ++ [ESC; BACKSLASH] ++ B "logo](img/logo.png)"
             ++ [ESC] ++ B "]8;;" ++ [ESC; BACKSLASH] ++ [ESC] ++ B "[24m").
Proof.
  split; [|split; evaluate].
  intros H. vm_compute in H. inversion H as [|? ? _ Hd]; subst.
  inversion Hd as [|? ? Hle]; subst. apply Hle. reflexivity.
Qed.

(** ** UTF-8: decoding what was encoded *)

Lemma lor_disjoint a b k :
  0 <= k -> 0 <= b < 2 ^ k -> Z.lor (a * 2 ^ k) b = a * 2 ^ k + b.
Proof.
  intros Hk Hb.
  assert (E : Z.land (a * 2 ^ k) b = 0).
  { apply Z.bits_inj'. intros i Hi. rewrite Z.land_spec, Z.bits_0.
    destruct (Z.lt_ge_cases i k) as [Hlt|Hge].
    - rewrite Z.mul_pow2_bits_low by lia. reflexivity.
    - rewrite <- (Z.mod_small b (2 ^ k)) by lia.
      rewrite Z.mod_pow2_bits_high by lia. apply andb_false_r. }
  rewrite <- Z.lxor_lor by exact E. symmetry. now apply Z.add_nocarry_lxor.
Qed.

Lemma land63 r : Z.land r 63 = r mod 64.
Proof. change 63 with (Z.ones 6). now rewrite Z.land_ones by lia. Qed.

Lemma land31 r : Z.land r 31 = r mod 32.
Proof. change 31 with (Z.ones 5). now rewrite Z.land_ones by lia. Qed.

Lemma land15 r : Z.land r 15 = r mod 16.
Proof. change 15 with (Z.ones 4). now rewrite Z.land_ones by lia. Qed.

Lemma land7 r : Z.land r 7 = r mod 8.
Proof. change 7 with (Z.ones 3). now rewrite Z.land_ones by lia. Qed.

Lemma shiftr_div r k : 0 <= k -> Z.shiftr r k = r / 2 ^ k.
Proof. intros; now apply Z.shiftr_div_pow2. Qed.

Lemma shiftl_mul r k : 0 <= k -> Z.shiftl r k = r * 2 ^ k.
Proof. intros; now apply Z.shiftl_mul_pow2. Qed.

(** A lead byte and its continuation bits. *)
Lemma lor_lead lead x k :
  0 <= k -> 0 <= x < 2 ^ k -> lead mod 2 ^ k = 0 ->
  Z.lor lead x = lead + x.
Proof.
  intros Hk Hx Hl.
  rewrite (Z.div_mod lead (2 ^ k)) at 1 by lia.
  rewrite Hl, Z.add_0_r, Z.mul_comm, lor_disjoint by lia.
  rewrite (Z.div_mod lead (2 ^ k)) at 2 by lia. lia.
Qed.

Ltac settle_tests :=
  repeat match goal with
         | |- context [if ?c then _ else _] =>
           first [ replace c with true by (Z.div_mod_to_equations; lia)
                 | replace c with false by (Z.div_mod_to_equations; lia)
                 | match c with
                   | (?a =? ?b) => destruct (Z.eqb_spec a b)
                   end ]
         end.

Lemma len2 (a b : byte) (t : bytes) : len (a :: b :: t) = 2 + len t.
Proof. rewrite !len_cons. lia. Qed.

(** Two bytes. *)
Lemma DecodeRune_EncodeRune_2 r rest :
  128 <= r <= 2047 ->
  GoLib.DecodeRune (GoLib.EncodeRune r ++ rest) = (r, 2).
Proof.
  intros Hr. unfold GoLib.EncodeRune. settle_tests. cbn [app].
  rewrite shiftr_div, land63 by lia.
  rewrite (@lor_lead 192 (r / 2 ^ 6) 6), (@lor_lead 128 (r mod 64) 6)
    by (try reflexivity; Z.div_mod_to_equations; lia).
  cbv beta iota zeta delta [GoLib.DecodeRune GoLib.inRange GoLib.isCont].
  rewrite len2, !code_byteOfZ by (Z.div_mod_to_equations; lia).
  pose proof (len_nonneg rest).
  settle_tests.
  rewrite land31, land63, shiftl_mul by lia.
  rewrite lor_disjoint by (Z.div_mod_to_equations; lia).
  f_equal. Z.div_mod_to_equations. lia.
Qed.

Lemma len3 (a b c : byte) (t : bytes) : len (a :: b :: c :: t) = 3 + len t.
Proof. rewrite !len_cons. lia. Qed.

Lemma len4 (a b c d : byte) (t : bytes) :
  len (a :: b :: c :: d :: t) = 4 + len t.
Proof. rewrite !len_cons. lia. Qed.

Lemma lor_64 a b : 0 <= b < 64 -> Z.lor (a * 64) b = a * 64 + b.
Proof. intros H. exact (@lor_disjoint a b 6 ltac:(lia) H). Qed.

Lemma lor_4096 a b : 0 <= b < 4096 -> Z.lor (a * 4096) b = a * 4096 + b.
Proof. intros H. exact (@lor_disjoint a b 12 ltac:(lia) H). Qed.

Lemma lor_262144 a b :
  0 <= b < 262144 -> Z.lor (a * 262144) b = a * 262144 + b.
Proof. intros H. exact (@lor_disjoint a b 18 ltac:(lia) H). Qed.

Lemma shiftl_6 x : Z.shiftl x 6 = x * 64.
Proof. now rewrite shiftl_mul by lia. Qed.

Lemma shiftl_12 x : Z.shiftl x 12 = x * 4096.
Proof. now rewrite shiftl_mul by lia. Qed.

Lemma shiftl_18 x : Z.shiftl x 18 = x * 262144.
Proof. now rewrite shiftl_mul by lia. Qed.

Lemma shiftr_6 x : Z.shiftr x 6 = x / 64.
Proof. now rewrite shiftr_div by lia. Qed.

Lemma shiftr_12 x : Z.shiftr x 12 = x / 4096.
Proof. now rewrite shiftr_div by lia. Qed.

Lemma shiftr_18 x : Z.shiftr x 18 = x / 262144.
Proof. now rewrite shiftr_div by lia. Qed.

Ltac arith := Z.div_mod_to_equations; lia.

(** Three bytes: the surrogates are not encoded. *)
Lemma DecodeRune_EncodeRune_3 r rest :
  2048 <= r <= 65535 -> ~ (55296 <= r <= 57343) ->
  GoLib.DecodeRune (GoLib.EncodeRune r ++ rest) = (r, 3).
Proof.
  intros Hr Hs. unfold GoLib.EncodeRune. settle_tests. cbn [app].
  rewrite shiftr_6, shiftr_12, !land63.
  rewrite (@lor_lead 224 (r / 4096) 4),
          (@lor_lead 128 ((r / 64) mod 64) 6),
          (@lor_lead 128 (r mod 64) 6)
    by (try reflexivity; arith).
  cbv beta iota zeta delta [GoLib.DecodeRune GoLib.inRange GoLib.isCont].
  rewrite len3, !code_byteOfZ by arith.
  pose proof (len_nonneg rest).
  settle_tests.
  all: rewrite land15, !land63, shiftl_6, shiftl_12.
  all: rewrite lor_4096 by arith.
  all: replace ((224 + r / 4096) mod 16 * 4096
                + (128 + (r / 64) mod 64) mod 64 * 64)
    with (((224 + r / 4096) mod 16 * 64 + (128 + (r / 64) mod 64) mod 64) * 64)
    by lia.
  all: rewrite lor_64 by arith.
  all: f_equal; arith.
Qed.

(** Four bytes. *)
Lemma DecodeRune_EncodeRune_4 r rest :
  65536 <= r <= 1114111 ->
  GoLib.DecodeRune (GoLib.EncodeRune r ++ rest) = (r, 4).
Proof.
  intros Hr. unfold GoLib.EncodeRune. settle_tests. cbn [app].
  rewrite shiftr_6, shiftr_12, shiftr_18, !land63.
  rewrite (@lor_lead 240 (r / 262144) 3),
          (@lor_lead 128 ((r / 4096) mod 64) 6),
          (@lor_lead 128 ((r / 64) mod 64) 6),
          (@lor_lead 128 (r mod 64) 6)
    by (try reflexivity; arith).
  cbv beta iota zeta delta [GoLib.DecodeRune GoLib.inRange GoLib.isCont].
  rewrite len4, !code_byteOfZ by arith.
  pose proof (len_nonneg rest).
  settle_tests.
  all: rewrite land7, !land63, shiftl_6, shiftl_12, shiftl_18.
  all: rewrite lor_262144 by arith.
  all: replace ((240 + r / 262144) mod 8 * 262144
           + (128 + (r / 4096) mod 64) mod 64 * 4096)
    with (((240 + r / 262144) mod 8 * 64
           + (128 + (r / 4096) mod 64) mod 64) * 4096) by lia.
  all: rewrite lor_4096 by arith.
  all: replace (((240 + r / 262144) mod 8 * 64
            + (128 + (r / 4096) mod 64) mod 64) * 4096
           + (128 + (r / 64) mod 64) mod 64 * 64)
    with ((((240 + r / 262144) mod 8 * 64
            + (128 + (r / 4096) mod 64) mod 64) * 64
           + (128 + (r / 64) mod 64) mod 64) * 64) by lia.
  all: rewrite lor_64 by arith.
  all: f_equal; arith.
Qed.

Lemma isScalar_spec r :
  isScalar r = true <-> 0 <= r <= 1114111 /\ ~ (55296 <= r <= 57343).
Proof. unfold isScalar. lia. Qed.

Lemma EncodeRune_len r :
  isScalar r = true ->
  len (GoLib.EncodeRune r)
  = (if r <=? 127 then 1 else if r <=? 2047 then 2
     else if r <=? 65535 then 3 else 4).
Proof.
  intros H. apply isScalar_spec in H. unfold GoLib.EncodeRune.
  destruct (Z.leb_spec r 127); [settle_tests; reflexivity|].
  destruct (Z.leb_spec r 2047); [settle_tests; reflexivity|].
  destruct (Z.leb_spec r 65535); settle_tests; reflexivity.
Qed.

(** Decoding what [EncodeRune] wrote gives the codepoint back, with the
    width written. *)
Lemma DecodeRune_EncodeRune r rest :
  isScalar r = true ->
  GoLib.DecodeRune (GoLib.EncodeRune r ++ rest)
  = (r, len (GoLib.EncodeRune r)).
Proof.
  intros H. rewrite EncodeRune_len by assumption.
  apply isScalar_spec in H.
  destruct (Z.leb_spec r 127).
  - unfold GoLib.EncodeRune. settle_tests. cbn [app].
    unfold GoLib.DecodeRune. rewrite code_byteOfZ by lia.
    settle_tests. reflexivity.
  - destruct (Z.leb_spec r 2047); [apply DecodeRune_EncodeRune_2; lia|].
    destruct (Z.leb_spec r 65535);
      [apply DecodeRune_EncodeRune_3 | apply DecodeRune_EncodeRune_4]; lia.
Qed.

Lemma EncodeRune_cons r :
  isScalar r = true ->
  exists b t, GoLib.EncodeRune r = b :: t
              /\ (if r <=? 127 then code b = r else 128 <= code b).
Proof.
  intros H. apply isScalar_spec in H. unfold GoLib.EncodeRune.
  destruct (Z.leb_spec r 127).
  - settle_tests. eexists _, _. split; [reflexivity|].
    apply code_byteOfZ. lia.
  - destruct (Z.leb_spec r 2047);
      [|destruct (Z.leb_spec r 65535)]; settle_tests;
      (eexists _, _; split; [reflexivity|]).
    + rewrite shiftr_6, (@lor_lead 192 (r / 64) 6), code_byteOfZ
        by (try reflexivity; arith). arith.
    + rewrite shiftr_12, (@lor_lead 224 (r / 4096) 4), code_byteOfZ
        by (try reflexivity; arith). arith.
    + rewrite shiftr_18, (@lor_lead 240 (r / 262144) 3), code_byteOfZ
        by (try reflexivity; arith). arith.
Qed.

(** The clipper's decoder reads a well-formed glyph as the codepoint it
    encodes, with the width of its encoding. *)
Lemma decodeRuneInBytes_EncodeRune r rest :
  isScalar r = true ->
  decodeRuneInBytes (GoLib.EncodeRune r ++ rest)
  = (r, len (GoLib.EncodeRune r)).
Proof.
  intros H. pose proof (@DecodeRune_EncodeRune r rest H) as Hd.
  pose proof (@EncodeRune_len r H) as Hl.
  destruct (@EncodeRune_cons r H) as [b [t [E Hb]]].
  rewrite E in *. cbn [app] in *. unfold decodeRuneInBytes.
  destruct (Z.leb_spec r 127).
  - replace (code b <? 128) with true by lia. rewrite Hb, Hl. reflexivity.
  - replace (code b <? 128) with false by lia.
    rewrite Hd. cbn [fst]. rewrite E. reflexivity.
Qed.

Lemma EncodeRune_bytes r :
  isScalar r = true ->
  Forall (fun b => if r <=? 127 then code b = r else 128 <= code b)
         (GoLib.EncodeRune r).
Proof.
  intros H. apply isScalar_spec in H. unfold GoLib.EncodeRune.
  destruct (Z.leb_spec r 127).
  - settle_tests. repeat constructor. apply code_byteOfZ. lia.
  - destruct (Z.leb_spec r 2047);
      [|destruct (Z.leb_spec r 65535)]; settle_tests;
      rewrite ?shiftr_6, ?shiftr_12, ?shiftr_18, ?land63;
      repeat constructor.
    all: first
      [ rewrite (@lor_lead 128 _ 6), code_byteOfZ
          by (try reflexivity; arith); arith
      | rewrite (@lor_lead 192 (r / 64) 6), code_byteOfZ
          by (try reflexivity; arith); arith
      | rewrite (@lor_lead 224 (r / 4096) 4), code_byteOfZ
          by (try reflexivity; arith); arith
      | rewrite (@lor_lead 240 (r / 262144) 3), code_byteOfZ
          by (try reflexivity; arith); arith ].
Qed.

Lemma EncodeRune_no_ESC r :
  isScalar r = true -> r <> 27 ->
  Forall (fun b => Byte.eqb b ESC = false) (GoLib.EncodeRune r).
Proof.
  intros H Hr. eapply Forall_impl; [|apply EncodeRune_bytes; exact H].
  cbn beta. intros b Hb. destruct (Byte.eqb b ESC) eqn:E; [|reflexivity].
  apply eqb_eq in E. subst b. exfalso. change (code ESC) with 27 in Hb.
  destruct (r <=? 127); lia.
Qed.

(** ** Scanning a run of bytes inside a line *)

Lemma at_app_len (pre : bytes) (x : byte) (rest : bytes) :
  at_ (pre ++ x :: rest) (len pre) = x.
Proof.
  rewrite at_app_r by lia. replace (len pre - len pre) with 0 by lia.
  reflexivity.
Qed.

Lemma sliceFrom_app_len (pre rest : bytes) :
  sliceFrom (pre ++ rest) (len pre) = rest.
Proof.
  unfold sliceFrom, len. rewrite Nat2Z.id, skipn_app, Nat.sub_diag, skipn_all.
  reflexivity.
Qed.

Lemma app_snoc_assoc (pre : bytes) (x : byte) (rest : bytes) :
  pre ++ x :: rest = (pre ++ [x]) ++ rest.
Proof. now rewrite <- app_assoc. Qed.

Lemma len_snoc (pre : bytes) (x : byte) : len (pre ++ [x]) = len pre + 1.
Proof. rewrite len_app. reflexivity. Qed.

(** The clipper's scan of a CSI sequence stops at the first letter. *)
Lemma skipToLetter_run fuel (pre run : bytes) (f : byte) (post : bytes) :
  Forall (fun b => isLetter b = false) run -> isLetter f = true ->
  (length run < fuel)%nat ->
  skipToLetter fuel (pre ++ run ++ f :: post) (len pre) = len pre + len run.
Proof.
  intros Hrun Hf. revert fuel pre.
  induction Hrun as [|x run Hx Hrun IH]; intros fuel pre Hfuel;
    (destruct fuel as [|fuel]; [cbn in Hfuel; lia|]);
    cbn [skipToLetter app].
  - rewrite at_app_len, Hf, andb_false_r. unfold len; cbn; lia.
  - rewrite at_app_len, Hx.
    replace (len pre <? len (pre ++ x :: run ++ f :: post)) with true
      by (rewrite len_app, len_cons; pose proof (len_nonneg (run ++ f :: post));
          lia).
    cbn [andb negb]. rewrite app_snoc_assoc, <- (len_snoc pre x).
    rewrite IH by (cbn in Hfuel; lia). rewrite len_snoc, len_cons. lia.
Qed.

(** The clipper's scan of an OSC sequence stops after ESC backslash. *)
Lemma skipOSCBody_run fuel (pre run post : bytes) :
  Forall (fun b => Byte.eqb b ESC = false) run ->
  (length run < fuel)%nat ->
  skipOSCBody fuel (pre ++ run ++ ESC :: BACKSLASH :: post) (len pre)
  = len pre + len run + 2.
Proof.
  intros Hrun. revert fuel pre.
  induction Hrun as [|x run Hx Hrun IH]; intros fuel pre Hfuel;
    (destruct fuel as [|fuel]; [cbn in Hfuel; lia|]);
    cbn [skipOSCBody app].
  - pose proof (len_nonneg post).
    replace (len pre <? len (pre ++ ESC :: BACKSLASH :: post) - 1) with true
      by (rewrite len_app, !len_cons; lia).
    replace (len pre + 1 <? len (pre ++ ESC :: BACKSLASH :: post)) with true
      by (rewrite len_app, !len_cons; lia).
    rewrite at_app_len.
    rewrite app_snoc_assoc, <- (len_snoc pre ESC), at_app_len.
    rewrite len_snoc. cbn. unfold len; cbn; lia.
  - pose proof (len_nonneg (run ++ ESC :: BACKSLASH :: post)).
    replace (len pre <? len (pre ++ x :: run ++ ESC :: BACKSLASH :: post) - 1)
      with true
      by (rewrite len_app, len_cons, len_app, !len_cons;
          pose proof (len_nonneg run); pose proof (len_nonneg post); lia).
    rewrite at_app_len, Hx. cbn [andb].
    rewrite app_snoc_assoc, <- (len_snoc pre x).
    rewrite IH by (cbn in Hfuel; lia). rewrite len_snoc, len_cons. lia.
Qed.

Lemma param_not_letter b : isParam b = true -> isLetter b = false.
Proof.
  intros H. destruct (isLetter b) eqn:E; [|reflexivity].
  apply letter_not_param in E. unfold isParam in H. congruence.
Qed.

Lemma forallb_Forall {A} (f : A -> bool) (l : list A) :
  forallb f l = true -> Forall (fun x => f x = true) l.
Proof. intros H. apply Forall_forall. now apply forallb_forall. Qed.

Lemma encodeToken_len t :
  tokenOK t = true -> 1 <= len (encodeToken t).
Proof.
  intros H. destruct t as [r | ps f | body]; cbn [encodeToken tokenOK] in *.
  - apply andb_true_iff in H. destruct H as [H _].
    rewrite EncodeRune_len by assumption.
    destruct (r <=? 127); [lia|]. destruct (r <=? 2047); [lia|].
    destruct (r <=? 65535); lia.
  - unfold len. cbn [length]. lia.
  - unfold len. cbn [length]. lia.
Qed.

(** One step of the clipper on a well-formed token: the token is copied, and
    counted if it is a glyph. *)
Lemma truncStep_token (pre : bytes) (t : token) (post : bytes) c res :
  tokenOK t = true ->
  truncStep (pre ++ encodeToken t ++ post) (mkTrunc (len pre) c res)
  = mkTrunc (len pre + len (encodeToken t)) (c + glyphCount [t])
            (res ++ encodeToken t).
Proof.
  intros Hok. pose proof (len_nonneg pre) as Hpre.
  pose proof (len_nonneg post) as Hpost.
  destruct t as [r | ps f | body]; cbn [encodeToken tokenOK glyphCount] in *.
  - apply andb_true_iff in Hok. destruct Hok as [Hs Hr].
    assert (Hr' : r <> 27) by lia.
    pose proof (EncodeRune_no_ESC Hs Hr') as Hne.
    destruct (@EncodeRune_cons r Hs) as [b [tl [E _]]].
    unfold truncStep. cbn [tr_i tr_visibleCount tr_result].
    rewrite sliceFrom_app_len, decodeRuneInBytes_EncodeRune by assumption.
    rewrite E in Hne |- *. cbn [app]. rewrite at_app_len.
    inversion Hne as [|? ? Hb _]; subst. rewrite Hb.
    f_equal; lia.
  - apply andb_true_iff in Hok. destruct Hok as [Hps Hf].
    apply forallb_Forall in Hps.
    assert (Hps' : Forall (fun b => isLetter b = false) ps).
    { eapply Forall_impl; [|exact Hps]. exact param_not_letter. }
    pose proof (len_nonneg ps) as Hlps.
    set (s := pre ++ (ESC :: LBRACKET :: ps ++ [f]) ++ post).
    assert (Es : s = (pre ++ [ESC; LBRACKET]) ++ ps ++ f :: post).
    { unfold s. cbn [app]. rewrite <- !app_assoc. reflexivity. }
    assert (Hls : len s = len pre + len ps + 3 + len post).
    { rewrite Es. unfold len. rewrite !length_app. cbn [length]. lia. }
    assert (Hlen2 : len (pre ++ [ESC; LBRACKET]) = len pre + 2)
      by (rewrite len_app; reflexivity).
    unfold truncStep. cbn [tr_i tr_visibleCount tr_result].
    assert (E0 : at_ s (len pre) = ESC) by (unfold s; apply at_app_len).
    assert (E1 : at_ s (len pre + 1) = LBRACKET).
    { unfold s. cbn [app]. rewrite app_snoc_assoc, <- (len_snoc pre ESC).
      apply at_app_len. }
    rewrite E0, E1.
    change (Byte.eqb ESC ESC) with true.
    change (Byte.eqb LBRACKET LBRACKET) with true. cbv iota.
    replace (len pre + 1 <? len s) with true by lia. cbn [andb].
    assert (Esk : skipToLetter (length s) s (len pre + 1 + 1)
                  = len pre + 2 + len ps).
    { replace (len pre + 1 + 1) with (len (pre ++ [ESC; LBRACKET])) by lia.
      rewrite Es at 2. rewrite skipToLetter_run; [lia | assumption.. |].
      unfold len in *. lia. }
    rewrite Esk.
    replace (len pre + 2 + len ps <? len s) with true by lia.
    f_equal.
    + unfold len. cbn [length]. rewrite length_app. cbn [length]. lia.
    + lia.
    + f_equal.
      replace (len pre + 2 + len ps + 1)
        with (len pre + len (ESC :: LBRACKET :: ps ++ [f]))
        by (unfold len; cbn [length]; rewrite length_app; cbn [length]; lia).
      unfold s. apply slice_app_mid.
  - apply forallb_Forall in Hok.
    assert (Hb : Forall (fun b => Byte.eqb b ESC = false) body).
    { eapply Forall_impl; [|exact Hok]. cbn beta. intros b Hb.
      apply andb_true_iff in Hb. destruct Hb as [Hb _].
      now apply negb_true_iff in Hb. }
    pose proof (len_nonneg body) as Hlb.
    set (s := pre ++ (ESC :: RBRACKET :: body ++ [ESC; BACKSLASH]) ++ post).
    assert (Es : s = (pre ++ [ESC; RBRACKET])
                     ++ body ++ ESC :: BACKSLASH :: post).
    { unfold s. cbn [app]. rewrite <- !app_assoc. reflexivity. }
    assert (Hls : len s = len pre + len body + 4 + len post).
    { rewrite Es. unfold len. rewrite !length_app. cbn [length]. lia. }
    assert (Hlen2 : len (pre ++ [ESC; RBRACKET]) = len pre + 2)
      by (rewrite len_app; reflexivity).
    unfold truncStep. cbn [tr_i tr_visibleCount tr_result].
    assert (E0 : at_ s (len pre) = ESC) by (unfold s; apply at_app_len).
    assert (E1 : at_ s (len pre + 1) = RBRACKET).
    { unfold s. cbn [app]. rewrite app_snoc_assoc, <- (len_snoc pre ESC).
      apply at_app_len. }
    rewrite E0, E1.
    change (Byte.eqb ESC ESC) with true.
    change (Byte.eqb RBRACKET LBRACKET) with false.
    change (Byte.eqb RBRACKET RBRACKET) with true. cbv iota.
    replace (len pre + 1 <? len s) with true by lia. cbn [andb]. cbv iota.
    assert (Esk : skipOSCBody (length s) s (len pre + 1 + 1)
                  = len pre + 2 + len body + 2).
    { replace (len pre + 1 + 1) with (len (pre ++ [ESC; RBRACKET])) by lia.
      rewrite Es at 2. rewrite skipOSCBody_run; [lia | assumption |].
      unfold len in *. lia. }
    rewrite Esk. f_equal.
    + unfold len. cbn [length]. rewrite length_app. cbn [length]. lia.
    + lia.
    + f_equal.
      replace (len pre + 2 + len body + 2)
        with (len pre + len (ESC :: RBRACKET :: body ++ [ESC; BACKSLASH]))
        by (unfold len; cbn [length]; rewrite length_app; cbn [length]; lia).
      unfold s. apply slice_app_mid.
Qed.

Lemma glyphCount_nonneg toks : 0 <= glyphCount toks.
Proof.
  induction toks as [|t toks IH]; cbn [glyphCount]; [lia|].
  destruct t; lia.
Qed.

Lemma glyphCount_cons t toks :
  glyphCount (t :: toks) = glyphCount [t] + glyphCount toks.
Proof. destruct t; cbn [glyphCount]; lia. Qed.

Lemma styledLineOf_cons t toks :
  styledLineOf (t :: toks) = encodeToken t ++ styledLineOf toks.
Proof. reflexivity. Qed.

Lemma styledLineOf_len toks :
  forallb tokenOK toks = true ->
  Z.of_nat (length toks) <= len (styledLineOf toks).
Proof.
  induction toks as [|t toks IH]; intros H; cbn [forallb length] in *.
  - unfold len; cbn; lia.
  - apply andb_true_iff in H. destruct H as [Ht H].
    rewrite styledLineOf_cons, len_app.
    pose proof (encodeToken_len t Ht). specialize (IH H). lia.
Qed.

(** The clipper on a well-formed line whose glyphs are fewer than the limit:
    it copies every token and stops at the end of the line. *)
Lemma truncLoop_tokens toks :
  forallb tokenOK toks = true ->
  forall fuel pre c n,
    (length toks <= fuel)%nat -> c + glyphCount toks < n ->
    truncLoop fuel (pre ++ styledLineOf toks) n (mkTrunc (len pre) c pre)
    = mkTrunc (len (pre ++ styledLineOf toks)) (c + glyphCount toks)
              (pre ++ styledLineOf toks).
Proof.
  induction toks as [|t toks IH]; intros Hok fuel pre c n Hfuel Hc.
  - cbn [styledLineOf map concat glyphCount]. rewrite app_nil_r.
    destruct fuel; cbn [truncLoop tr_i]; [f_equal; lia|].
    replace (len pre <? len pre) with false by lia. cbn [andb].
    f_equal; lia.
  - cbn [forallb] in Hok. apply andb_true_iff in Hok.
    destruct Hok as [Ht Hok].
    destruct fuel as [|fuel]; [cbn in Hfuel; lia|].
    pose proof (encodeToken_len t Ht) as Hl.
    pose proof (glyphCount_nonneg toks) as Hg.
    pose proof (len_nonneg (styledLineOf toks)) as Hs.
    rewrite glyphCount_cons in Hc |- *.
    assert (Hg1 : 0 <= glyphCount [t]) by apply glyphCount_nonneg.
    rewrite styledLineOf_cons.
    cbn [truncLoop tr_i tr_visibleCount].
    replace (len pre <? len (pre ++ encodeToken t ++ styledLineOf toks))
      with true by (rewrite !len_app; lia).
    replace (c <? n) with true by lia. cbn [andb].
    rewrite truncStep_token by assumption.
    rewrite <- len_app.
    rewrite (app_assoc pre (encodeToken t) (styledLineOf toks)).
    rewrite IH by (assumption || (cbn in Hfuel; lia) || lia).
    f_equal. lia.
Qed.

(** ** The mapper on a well-formed line *)

Lemma skipCSIParams_run fuel (pre run : bytes) (x : byte) (post : bytes) :
  Forall (fun b => isParam b = true) run -> isParam x = false ->
  (length run < fuel)%nat ->
  skipCSIParams fuel (pre ++ run ++ x :: post) (len pre) = len pre + len run.
Proof.
  intros Hrun Hx. revert fuel pre.
  induction Hrun as [|y run Hy Hrun IH]; intros fuel pre Hfuel;
    (destruct fuel as [|fuel]; [cbn in Hfuel; lia|]);
    cbn [skipCSIParams app].
  - rewrite at_app_len. unfold isParam in Hx. rewrite Hx, andb_false_r.
    unfold len; cbn; lia.
  - rewrite at_app_len. unfold isParam in Hy. rewrite Hy.
    replace (len pre <? len (pre ++ y :: run ++ x :: post)) with true
      by (unfold len; rewrite length_app; cbn [length]; lia).
    cbn [andb]. rewrite app_snoc_assoc, <- (len_snoc pre y).
    rewrite IH by (cbn in Hfuel; lia). rewrite len_snoc, len_cons. lia.
Qed.

Lemma skipOSC_run fuel (pre run post : bytes) :
  Forall (fun b => negb (Byte.eqb b ESC) && negb (Byte.eqb b BEL) = true)
         run ->
  (length run < fuel)%nat ->
  skipOSC fuel (pre ++ run ++ ESC :: BACKSLASH :: post) (len pre)
  = len pre + len run + 2.
Proof.
  intros Hrun. revert fuel pre.
  induction Hrun as [|y run Hy Hrun IH]; intros fuel pre Hfuel;
    (destruct fuel as [|fuel]; [cbn in Hfuel; lia|]);
    cbn [skipOSC app].
  - replace (len pre <? len (pre ++ ESC :: BACKSLASH :: post)) with true
      by (unfold len; rewrite length_app; cbn [length]; lia).
    replace (len pre <? len (pre ++ ESC :: BACKSLASH :: post) - 1) with true
      by (unfold len; rewrite length_app; cbn [length]; lia).
    rewrite at_app_len.
    rewrite app_snoc_assoc, <- (len_snoc pre ESC), at_app_len.
    rewrite len_snoc. cbn. unfold len; cbn; lia.
  - apply andb_true_iff in Hy. destruct Hy as [Hy1 Hy2].
    apply negb_true_iff in Hy1. apply negb_true_iff in Hy2.
    replace (len pre <? len (pre ++ y :: run ++ ESC :: BACKSLASH :: post))
      with true by (unfold len; rewrite length_app; cbn [length]; lia).
    rewrite at_app_len, Hy1, Hy2, andb_false_r. cbn [andb].
    rewrite app_snoc_assoc, <- (len_snoc pre y).
    rewrite IH by (cbn in Hfuel; lia). rewrite len_snoc, len_cons. lia.
Qed.

(** Bytes that are not ESC are mapped one by one. *)
Lemma stripLoop_plain_run (run : bytes) :
  Forall (fun b => Byte.eqb b ESC = false) run ->
  forall fuel pre post plain pm,
  exists pm',
    stripLoop (length run + fuel) (pre ++ run ++ post)
              (mkStrip (len pre) plain pm)
    = stripLoop fuel (pre ++ run ++ post)
                (mkStrip (len pre + len run) (plain ++ run) pm').
Proof.
  induction 1 as [|x run Hx Hrun IH]; intros fuel pre post plain pm.
  - exists pm. cbn [length Nat.add app]. rewrite app_nil_r.
    f_equal. f_equal. unfold len; cbn; lia.
  - cbn [length Nat.add stripLoop st_i app].
    replace (len pre <? len (pre ++ x :: run ++ post)) with true
      by (unfold len; rewrite length_app; cbn [length]; lia).
    unfold stripStep. cbn [st_i st_plain st_posMap].
    rewrite at_app_len, Hx, andb_false_r.
    destruct (IH fuel (pre ++ [x]) post (plain ++ [x]) (pm ++ [len pre]))
      as [pm' E].
    exists pm'. rewrite len_snoc in E. rewrite <- app_snoc_assoc in E.
    rewrite E. f_equal. f_equal.
    + rewrite len_cons. lia.
    + now rewrite <- app_assoc.
Qed.

(** One step of the mapper on a well-formed sequence: the sequence is
    skipped whole, and nothing is written. *)
Lemma stripStep_sequence (pre : bytes) (t : token) (post : bytes) plain pm :
  tokenOK t = true -> glyphCount [t] = 0 ->
  stripStep (pre ++ encodeToken t ++ post) (mkStrip (len pre) plain pm)
  = mkStrip (len pre + len (encodeToken t)) plain pm.
Proof.
  intros Hok Hg. pose proof (len_nonneg pre) as Hpre.
  pose proof (len_nonneg post) as Hpost.
  destruct t as [r | ps f | body]; cbn [encodeToken tokenOK glyphCount] in *;
    [lia | |].
  - apply andb_true_iff in Hok. destruct Hok as [Hps Hf].
    apply forallb_Forall in Hps.
    assert (Hf' : isParam f = false) by (apply letter_not_param; exact Hf).
    pose proof (len_nonneg ps) as Hlps.
    set (s := pre ++ (ESC :: LBRACKET :: ps ++ [f]) ++ post).
    assert (Es : s = (pre ++ [ESC; LBRACKET]) ++ ps ++ f :: post).
    { unfold s. cbn [app]. rewrite <- !app_assoc. reflexivity. }
    assert (Hls : len s = len pre + len ps + 3 + len post).
    { rewrite Es. unfold len. rewrite !length_app. cbn [length]. lia. }
    assert (Hlen2 : len (pre ++ [ESC; LBRACKET]) = len pre + 2)
      by (rewrite len_app; reflexivity).
    unfold stripStep. cbn [st_i st_plain st_posMap].
    assert (E0 : at_ s (len pre) = ESC) by (unfold s; apply at_app_len).
    assert (E1 : at_ s (len pre + 1) = LBRACKET).
    { unfold s. cbn [app]. rewrite app_snoc_assoc, <- (len_snoc pre ESC).
      apply at_app_len. }
    rewrite E0, E1.
    change (Byte.eqb ESC ESC) with true.
    change (Byte.eqb LBRACKET LBRACKET) with true.
    replace (len pre <? len s - 1) with true by lia. cbn [andb]. cbv iota.
    assert (Esk : skipCSIParams (length s) s (len pre + 2)
                  = len pre + 2 + len ps).
    { replace (len pre + 2) with (len (pre ++ [ESC; LBRACKET])) by lia.
      rewrite Es at 2. rewrite skipCSIParams_run; [lia | assumption.. |].
      unfold len in *. lia. }
    rewrite Esk.
    replace (len pre + 2 + len ps <? len s) with true by lia.
    f_equal. unfold len. cbn [length]. rewrite length_app. cbn [length]. lia.
  - apply forallb_Forall in Hok.
    pose proof (len_nonneg body) as Hlb.
    set (s := pre ++ (ESC :: RBRACKET :: body ++ [ESC; BACKSLASH]) ++ post).
    assert (Es : s = (pre ++ [ESC; RBRACKET])
                     ++ body ++ ESC :: BACKSLASH :: post).
    { unfold s. cbn [app]. rewrite <- !app_assoc. reflexivity. }
    assert (Hls : len s = len pre + len body + 4 + len post).
    { rewrite Es. unfold len. rewrite !length_app. cbn [length]. lia. }
    assert (Hlen2 : len (pre ++ [ESC; RBRACKET]) = len pre + 2)
      by (rewrite len_app; reflexivity).
    unfold stripStep. cbn [st_i st_plain st_posMap].
    assert (E0 : at_ s (len pre) = ESC) by (unfold s; apply at_app_len).
    assert (E1 : at_ s (len pre + 1) = RBRACKET).
    { unfold s. cbn [app]. rewrite app_snoc_assoc, <- (len_snoc pre ESC).
      apply at_app_len. }
    rewrite E0, E1.
    change (Byte.eqb ESC ESC) with true.
    change (Byte.eqb RBRACKET LBRACKET) with false.
    change (Byte.eqb RBRACKET RBRACKET) with true.
    replace (len pre <? len s - 1) with true by lia. cbn [andb]. cbv iota.
    assert (Esk : skipOSC (length s) s (len pre + 2)
                  = len pre + 2 + len body + 2).
    { replace (len pre + 2) with (len (pre ++ [ESC; RBRACKET])) by lia.
      rewrite Es at 2. rewrite skipOSC_run; [lia | assumption |].
      unfold len in *. lia. }
    rewrite Esk. f_equal.
    unfold len. cbn [length]. rewrite length_app. cbn [length]. lia.
Qed.

Lemma glyphBytes_cons t toks :
  glyphBytes (t :: toks) = glyphBytes [t] ++ glyphBytes toks.
Proof. unfold glyphBytes. cbn [map concat]. now rewrite app_nil_r. Qed.

(** The mapper over the tokens of a well-formed line: the plain text is the
    glyphs' bytes. *)
Lemma stripLoop_tokens toks :
  forallb tokenOK toks = true ->
  forall fuel pre plain pm,
    len (styledLineOf toks) <= Z.of_nat fuel ->
    exists pm',
      stripLoop fuel (pre ++ styledLineOf toks) (mkStrip (len pre) plain pm)
      = mkStrip (len (pre ++ styledLineOf toks)) (plain ++ glyphBytes toks)
                pm'.
Proof.
  induction toks as [|t toks IH]; intros Hok fuel pre plain pm Hfuel.
  - exists pm. cbn [styledLineOf map concat glyphBytes]. rewrite !app_nil_r.
    destruct fuel as [|fuel]; [reflexivity|].
    cbn [stripLoop st_i]. now rewrite Z.ltb_irrefl.
  - cbn [forallb] in Hok. apply andb_true_iff in Hok.
    destruct Hok as [Ht Hok].
    rewrite styledLineOf_cons in *. rewrite len_app in Hfuel.
    pose proof (encodeToken_len t Ht) as Hlt.
    pose proof (len_nonneg (styledLineOf toks)) as Hrest.
    pose proof (len_nonneg pre) as Hpre.
    rewrite glyphBytes_cons.
    destruct t as [r | ps f | body].
    + cbn [tokenOK] in Ht. apply andb_true_iff in Ht. destruct Ht as [Hs Hr].
      assert (Hr' : r <> 27) by lia.
      pose proof (EncodeRune_no_ESC Hs Hr') as Hne.
      cbn [encodeToken] in *.
      replace fuel
        with (length (GoLib.EncodeRune r)
              + (fuel - length (GoLib.EncodeRune r)))%nat
        by (unfold len in *; lia).
      destruct (stripLoop_plain_run Hne
                  (fuel - length (GoLib.EncodeRune r))%nat pre
                  (styledLineOf toks) plain pm) as [pm1 E1].
      rewrite E1.
      rewrite (app_assoc pre), <- len_app.
      destruct (IH Hok (fuel - length (GoLib.EncodeRune r))%nat
                  (pre ++ GoLib.EncodeRune r) (plain ++ GoLib.EncodeRune r)
                  pm1) as [pm2 E2]; [unfold len in *; lia|].
      exists pm2. rewrite E2. f_equal.
      unfold glyphBytes at 2. cbn [map concat]. rewrite app_nil_r.
      now rewrite <- app_assoc.
    + destruct fuel as [|fuel]; [exfalso; lia|].
      cbn [stripLoop st_i].
      replace (len pre <? len (pre ++ encodeToken (SGR ps f)
                                   ++ styledLineOf toks))
        with true by (rewrite !len_app; lia).
      rewrite stripStep_sequence by (assumption || reflexivity).
      rewrite (app_assoc pre), <- len_app.
      destruct (IH Hok fuel (pre ++ encodeToken (SGR ps f)) plain pm)
        as [pm2 E2]; [lia|].
      exists pm2. rewrite E2. f_equal.
    + destruct fuel as [|fuel]; [exfalso; lia|].
      cbn [stripLoop st_i].
      replace (len pre <? len (pre ++ encodeToken (OSC body)
                                   ++ styledLineOf toks))
        with true by (rewrite !len_app; lia).
      rewrite stripStep_sequence by (assumption || reflexivity).
      rewrite (app_assoc pre), <- len_app.
      destruct (IH Hok fuel (pre ++ encodeToken (OSC body)) plain pm)
        as [pm2 E2]; [lia|].
      exists pm2. rewrite E2. f_equal.
Qed.

Lemma stripANSI_tokens toks :
  forallb tokenOK toks = true ->
  stripANSI (styledLineOf toks) = glyphBytes toks.
Proof.
  intros Hok. unfold stripANSI, stripANSIWithMapping. cbn [fst].
  destruct (@stripLoop_tokens toks Hok (length (styledLineOf toks)) [] [] [])
    as [pm E]; [unfold len; lia|].
  cbn [app] in E. change (len []) with 0 in E. rewrite E. reflexivity.
Qed.

(** The glyphs' bytes hold one codepoint per glyph. *)
Lemma RuneCountFrom_glyphBytes toks :
  forallb tokenOK toks = true ->
  forall fuel, (length (glyphBytes toks) <= fuel)%nat ->
    GoLib.RuneCountFrom fuel (glyphBytes toks) = glyphCount toks.
Proof.
  induction toks as [|t toks IH]; intros Hok fuel Hfuel.
  - destruct fuel; reflexivity.
  - cbn [forallb] in Hok. apply andb_true_iff in Hok.
    destruct Hok as [Ht Hok].
    rewrite glyphBytes_cons in *.
    destruct t as [r | ps f | body].
    + cbn [tokenOK] in Ht. apply andb_true_iff in Ht. destruct Ht as [Hs _].
      unfold glyphBytes at 1. unfold glyphBytes in Hfuel at 1.
      cbn [map concat glyphCount] in *.
      rewrite app_nil_r in *.
      destruct (@EncodeRune_cons r Hs) as [b [tl [E _]]].
      rewrite length_app, E in Hfuel. cbn [length] in Hfuel.
      destruct fuel as [|fuel]; [lia|].
      cbn [GoLib.RuneCountFrom]. rewrite E at 1. cbn [app].
      rewrite DecodeRune_EncodeRune by assumption. cbn [snd].
      rewrite sliceFrom_app_len, IH by (assumption || lia). reflexivity.
    + change (glyphBytes [SGR ps f] ++ glyphBytes toks)
        with (glyphBytes toks) in *.
      cbn [glyphCount]. apply IH; [assumption | lia].
    + change (glyphBytes [OSC body] ++ glyphBytes toks)
        with (glyphBytes toks) in *.
      cbn [glyphCount]. apply IH; [assumption | lia].
Qed.

(** The visible characters of a well-formed line, counted on the mapper's
    plain text, are its glyphs. *)
Lemma RuneCount_stripANSI_tokens toks :
  forallb tokenOK toks = true ->
  GoLib.RuneCount (stripANSI (styledLineOf toks)) = glyphCount toks.
Proof.
  intros Hok. rewrite stripANSI_tokens by assumption.
  unfold GoLib.RuneCount. now apply RuneCountFrom_glyphBytes.
Qed.

(** C6 (as amended).  A well-formed styled line is a sequence of glyphs
    (Unicode scalar values other than ESC, in UTF-8), style sequences (ESC
    [, digits and semicolons, a letter) and hyperlink markers (ESC ], a body
    without ESC and BEL, ESC backslash).  For every such line whose
    visible-character count, taken as the number of codepoints of the text
    [stripANSI] leaves, is strictly below [n], [truncateVisibleChars]
    returns the line unchanged, byte for byte, trailing control sequences
    included. *)
Theorem truncateVisibleChars_below_limit (toks : list token) (n : Z) :
  forallb tokenOK toks = true ->
  GoLib.RuneCount (stripANSI (styledLineOf toks)) < n ->
  truncateVisibleChars (styledLineOf toks) n = styledLineOf toks.
Proof.
  intros Hok Hn. rewrite RuneCount_stripANSI_tokens in Hn by assumption.
  unfold truncateVisibleChars.
  pose proof (@truncLoop_tokens toks Hok (length (styledLineOf toks)) [] 0 n)
    as E.
  cbn [app] in E. change (len []) with 0 in E.
  rewrite E; [reflexivity | | lia].
  pose proof (styledLineOf_len toks Hok). unfold len in *. lia.
Qed.

Lemma truncateVisibleChars_below_limit_witness :
  forallb tokenOK listItemTokens = true
  /\ GoLib.RuneCount (stripANSI (styledLineOf listItemTokens)) = 4
  /\ styledLineOf listItemTokens
     = bullet ++ B " " ++ [ESC] ++ B "[4ma" ++ eAcute ++ [ESC] ++ B "[0m"
  /\ truncateVisibleChars (styledLineOf listItemTokens) 5
     = styledLineOf listItemTokens.
Proof.
  assert (Hok : forallb tokenOK listItemTokens = true)
    by (vm_compute; reflexivity).
  assert (Hc : GoLib.RuneCount (stripANSI (styledLineOf listItemTokens)) = 4)
    by (vm_compute; reflexivity).
  split; [exact Hok|]. split; [exact Hc|].
  split; [vm_compute; reflexivity|].
  apply (@truncateVisibleChars_below_limit listItemTokens 5 Hok).
  rewrite Hc. lia.
Defined.

(** C6 as stated fails.  A line of exactly [n] visible characters loses the
    control sequence that follows the last of them.  Below the limit, a line
    that holds a byte which is no UTF-8 encoding comes back with U+FFFD
    written over it and over the two bytes after it; and a line whose
    sequences are not well formed is cut where the clipper, which reads
    them otherwise than [stripANSI] does, has counted [n] characters. *)
Lemma truncateVisibleChars_at_limit_counterexample :
  (GoLib.RuneCount (stripANSI resetAfterText) = 2
   /\ truncateVisibleChars resetAfterText 2 = B "ab"
   /\ truncateVisibleChars resetAfterText 2 <> resetAfterText)
  /\ (GoLib.RuneCount (stripANSI invalidThenText) = 4
      /\ truncateVisibleChars invalidThenText 5 = [xef; xbf; xbd] ++ B "c"
      /\ truncateVisibleChars invalidThenText 5 <> invalidThenText)
  /\ (GoLib.RuneCount (stripANSI malformedLine) = 0
      /\ truncateVisibleChars malformedLine 1
         = [ESC] ++ B "[?" ++ [ESC] ++ B "]1ma"
      /\ truncateVisibleChars malformedLine 1 <> malformedLine).
Proof.
  split; [|split].
  - split; [evaluate|]. split; evaluate.
  - split; [evaluate|]. split; evaluate.
  - split; [evaluate|]. split; evaluate.
Qed.

(** ** The clipper's count and the mapper's plain text *)

Lemma glyphCount_le_length toks : glyphCount toks <= Z.of_nat (length toks).
Proof.
  induction toks as [|t toks IH]; cbn [glyphCount length]; [lia|].
  destruct t; lia.
Qed.

(** X3.  On a well-formed styled line the two scanners agree: the text the
    mapper leaves is the glyphs' bytes, and the number of characters the
    clipper counts is the number of codepoints of that text. *)
Theorem visibleCount_is_RuneCount_of_plain (toks : list token) :
  forallb tokenOK toks = true ->
  stripANSI (styledLineOf toks) = glyphBytes toks
  /\ visibleCount (styledLineOf toks)
     = GoLib.RuneCount (stripANSI (styledLineOf toks)).
Proof.
  intros Hok. split; [now apply stripANSI_tokens|].
  rewrite RuneCount_stripANSI_tokens by assumption.
  unfold visibleCount.
  pose proof (styledLineOf_len toks Hok) as Hl.
  pose proof (glyphCount_le_length toks) as Hg.
  pose proof (@truncLoop_tokens toks Hok (length (styledLineOf toks)) [] 0
                (len (styledLineOf toks) + 1)) as E.
  cbn [app] in E. change (len []) with 0 in E.
  rewrite E; [reflexivity | unfold len in *; lia | lia].
Qed.

Lemma visibleCount_is_RuneCount_of_plain_witness :
  forallb tokenOK listItemTokens = true
  /\ stripANSI (styledLineOf listItemTokens)
     = bullet ++ B " a" ++ eAcute
  /\ visibleCount (styledLineOf listItemTokens) = 4.
Proof.
  assert (Hok : forallb tokenOK listItemTokens = true)
    by (vm_compute; reflexivity).
  destruct (@visibleCount_is_RuneCount_of_plain listItemTokens Hok)
    as [H1 H2].
  split; [exact Hok|]. split.
  - rewrite H1. vm_compute. reflexivity.
  - rewrite H2. vm_compute. reflexivity.
Defined.

(** X4.  Whatever the limit, the clipper returns a prefix of an ASCII line:
    it copies bytes and sequences in order and never writes anything
    else. *)
Theorem truncateVisibleChars_ascii_prefix (s : bytes) (n : Z) :
  Forall (fun b => isASCII b = true) s ->
  exists rest, s = truncateVisibleChars s n ++ rest.
Proof. intros Ha. now apply truncateVisibleChars_prefix. Qed.

Lemma truncateVisibleChars_ascii_prefix_witness :
  Forall (fun b => isASCII b = true) resetAfterText
  /\ truncateVisibleChars resetAfterText 1 = B "a"
  /\ exists rest,
       resetAfterText = truncateVisibleChars resetAfterText 1 ++ rest.
Proof.
  assert (Ha : Forall (fun b => isASCII b = true) resetAfterText)
    by repeat constructor.
  split; [exact Ha|]. split; [vm_compute; reflexivity|].
  exact (@truncateVisibleChars_ascii_prefix resetAfterText 1 Ha).
Defined.

(** X5.  An ASCII line, whatever its sequences look like, comes back
    unchanged when the number of characters the clipper itself counts on it
    is below the limit. *)
Theorem truncateVisibleChars_ascii_below (s : bytes) (n : Z) :
  Forall (fun b => isASCII b = true) s ->
  visibleCount s < n ->
  truncateVisibleChars s n = s.
Proof. intros Ha Hn. now apply truncateVisibleChars_below. Qed.

Lemma truncateVisibleChars_ascii_below_witness :
  Forall (fun b => isASCII b = true) malformedLine
  /\ visibleCount malformedLine = 3
  /\ truncateVisibleChars malformedLine 4 = malformedLine.
Proof.
  assert (Ha : Forall (fun b => isASCII b = true) malformedLine)
    by repeat constructor.
  assert (Hc : visibleCount malformedLine = 3) by (vm_compute; reflexivity).
  split; [exact Ha|]. split; [exact Hc|].
  apply (@truncateVisibleChars_ascii_below malformedLine 4 Ha).
  rewrite Hc. lia.
Defined.
